(** * expire_map: a key/value store whose entries expire

    Shallow embedding of [expire_map<K, V>] from [expire_map.h] and the
    verification of its documented behaviour.

    Every public operation of the class takes [lock_] for its whole body, and
    the reclaimer thread holds [lock_] through one iteration of its loop up
    to the point where it waits on [cv_].  The model therefore has one atomic
    transition per public call and one per reclaimer iteration.  The clock
    ([get_time_ms]) is an input of each transition that reads it. *)

From stdpp Require Import gmap list fin_maps fin_sets strings.
From Stdlib Require Import ZArith Lia Ascii.

Local Open Scope Z_scope.

(** ** Unsigned 64-bit arithmetic *)

Definition UINT64_MAX : Z := 2 ^ 64 - 1.

(** [uint64_t] addition wraps around. *)
Definition add64 (a b : Z) : Z := (a + b) mod 2 ^ 64.

Definition is_uint64 (a : Z) : Prop := 0 <= a <= UINT64_MAX.

(** ** Assertions

    [assert(e)] aborts the process unless the translation unit is compiled
    with [NDEBUG]; with [NDEBUG] it expands to nothing. *)

Inductive result (A : Type) : Type :=
| Ok (a : A)
| AssertFail.

Arguments Ok {A} a.
Arguments AssertFail {A}.

#[global] Instance result_bind : MBind result := λ A B f r,
  match r with
  | Ok a => f a
  | AssertFail => AssertFail
  end.

#[global] Instance result_ret : MRet result := λ A a, Ok a.

Definition assert_ (ndebug : bool) (e : bool) : result unit :=
  if ndebug || e then Ok tt else AssertFail.

(** [for_each] over a sequence with a body that may abort. *)
Fixpoint for_each {A S : Type} (f : S → A → result S) (l : list A) (s : S)
  : result S :=
  match l with
  | [] => Ok s
  | x :: l' => s' ← f s x; for_each f l' s'
  end.

(** [MAX_RECLAIM_ENTRIES] *)
Definition MAX_RECLAIM_ENTRIES : nat := 10.

Section expire_map.
Context {K V : Type} `{Countable K}.

(** ** Data *)

(** [struct map_data]: the value type of the lookup map. *)
Record map_data : Type := mk_map_data {
  value_ : V;
  timeout_ : Z
}.

(** [struct timeout_data]: one element of the append-only list.  Its field
    [timeout_] is called [td_timeout_] here. *)
Record timeout_data : Type := mk_timeout_data {
  key_ : K;
  td_timeout_ : Z;
  overwrite_ : bool
}.

(** The data members of the class that the lock protects. *)
Record expire_map : Type := mk_expire_map {
  append_timeouts_ : list timeout_data;
  sorted_timeouts_ : gmap Z (gset K);
  lookup_map_ : gmap K map_data;
  shutdown_ : bool
}.

(** State right after the constructor. *)
Definition new_map : expire_map :=
  mk_expire_map [] ∅ ∅ false.

(** ** The ordered map [sorted_timeouts_]

    [std::map] iterates in ascending key order, so [begin()] is the entry
    with the least key. *)

Definition least (d : Z) (acc : option Z) : option Z :=
  match acc with
  | None => Some d
  | Some a => Some (Z.min d a)
  end.

Definition min_of (l : list Z) : option Z := foldr least None l.

(** [sorted_timeouts_.begin()->first]; [None] when the map is empty, where
    the source asserts. *)
Definition min_timeout (st : gmap Z (gset K)) : option Z :=
  min_of (map_to_list st).*1.

(** [sorted_timeouts_.begin()] *)
Definition begin_ (st : gmap Z (gset K)) : option (Z * gset K) :=
  match min_timeout st with
  | Some d =>
      match st !! d with
      | Some keys => Some (d, keys)
      | None => None
      end
  | None => None
  end.

(** ** Public operations *)

(** [get(key, val)]: the result, the content of [*val] afterwards, and the
    state afterwards. *)
Definition get (now : Z) (key : K) (val : V) (m : expire_map)
  : bool * V * expire_map :=
  match lookup_map_ m !! key with
  | None => (false, val, m)
  | Some it =>
      if timeout_ it <=? now then (false, val, m)
      else (true, value_ it, m)
  end.

Definition remove_internal (key : K) (m : expire_map) : expire_map :=
  match lookup_map_ m !! key with
  | Some it =>
      mk_expire_map
        (append_timeouts_ m ++ [mk_timeout_data key (timeout_ it) true])
        (sorted_timeouts_ m)
        (delete key (lookup_map_ m))
        (shutdown_ m)
  | None => m
  end.

(** [unordered_map::insert] keeps an element that is already there. *)
Definition map_insert (key : K) (d : map_data) (lm : gmap K map_data)
  : gmap K map_data :=
  match lm !! key with
  | Some _ => lm
  | None => <[key := d]> lm
  end.

Definition put (now : Z) (key : K) (val : V) (ms : Z) (m : expire_map)
  : expire_map :=
  let epoch_ms := add64 now ms in
  let m1 :=
    match lookup_map_ m !! key with
    | Some _ => remove_internal key m
    | None => m
    end in
  mk_expire_map
    (append_timeouts_ m1 ++ [mk_timeout_data key epoch_ms false])
    (sorted_timeouts_ m1)
    (map_insert key (mk_map_data val epoch_ms) (lookup_map_ m1))
    (shutdown_ m1).

(** Whether [put] calls [cv_.notify_all()]. *)
Definition put_notifies (now ms : Z) (m : expire_map) : bool :=
  match min_timeout (sorted_timeouts_ m) with
  | None => true
  | Some min_to => add64 now ms <=? min_to
  end.

Definition remove (key : K) (m : expire_map) : expire_map :=
  remove_internal key m.

Definition size (m : expire_map) : nat := base.size (lookup_map_ m).

Definition empty (m : expire_map) : bool := Nat.eqb (size m) 0.

(** [cleanup()] *)
Definition cleanup (m : expire_map) : expire_map :=
  mk_expire_map (append_timeouts_ m) (sorted_timeouts_ m) (lookup_map_ m) true.

(** ** The reclaimer *)

(** The lambda of [populate_sorted_timeouts], applied to one element. *)
Definition populate_one (ndebug : bool) (st : gmap Z (gset K))
    (data : timeout_data) : result (gmap Z (gset K)) :=
  match st !! td_timeout_ data with
  | Some keys =>
      if overwrite_ data then
        assert_ ndebug (bool_decide (key_ data ∈ keys));;
        let keys' := keys ∖ {[key_ data]} in
        if bool_decide (keys' = ∅)
        then Ok (delete (td_timeout_ data) st)
        else Ok (<[td_timeout_ data := keys']> st)
      else
        assert_ ndebug (bool_decide (key_ data ∉ keys));;
        Ok (<[td_timeout_ data := keys ∪ {[key_ data]}]> st)
  | None => Ok (<[td_timeout_ data := {[key_ data]}]> st)
  end.

Definition populate_sorted_timeouts (ndebug : bool) (m : expire_map)
  : result expire_map :=
  st ← for_each (populate_one ndebug) (append_timeouts_ m) (sorted_timeouts_ m);
  Ok (mk_expire_map [] st (lookup_map_ m) (shutdown_ m)).

(** The lambda of the eviction loop: [lookup_map_.erase(key)] and the
    assertion on its result. *)
Definition erase_key (ndebug : bool) (lm : gmap K map_data) (key : K)
  : result (gmap K map_data) :=
  let result := match lm !! key with Some _ => 1 | None => 0 end in
  assert_ ndebug (result =? 1);;
  Ok (delete key lm).

(** The inner [while] of [reclaim]; [budget] is
    [MAX_RECLAIM_ENTRIES - num_reclaimed].  The iterator always stands at
    [begin()], since every entry before it has been erased. *)
Fixpoint reclaim_loop (ndebug : bool) (curr_ms : Z) (budget : nat)
    (m : expire_map) : result expire_map :=
  match budget with
  | O => Ok m
  | S budget' =>
      match begin_ (sorted_timeouts_ m) with
      | None => Ok m
      | Some (d, keys) =>
          if d <=? curr_ms then
            lm ← for_each (erase_key ndebug) (elements keys) (lookup_map_ m);
            reclaim_loop ndebug curr_ms budget'
              (mk_expire_map (append_timeouts_ m)
                 (delete d (sorted_timeouts_ m)) lm (shutdown_ m))
          else Ok m
      end
  end.

(** How one iteration of the outer [while (1)] of [reclaim] ends. *)
Inductive reclaim_end : Type :=
| STOPPED                 (* return *)
| EMPTY_WAIT              (* cv_.wait(lock); continue *)
| TIMED_WAIT (diff : Z)   (* cv_.wait_for(lock, diff); continue *)
| RECLAIMING.             (* eviction loop ran *)

(** One iteration of the outer loop; [curr_ms] is what [get_time_ms]
    returns in it. *)
Definition reclaim_iter (ndebug : bool) (curr_ms : Z) (m : expire_map)
  : result (reclaim_end * expire_map) :=
  m1 ← populate_sorted_timeouts ndebug m;
  match min_timeout (sorted_timeouts_ m1) with
  | None =>
      if shutdown_ m1 then Ok (STOPPED, m1) else Ok (EMPTY_WAIT, m1)
  | Some min_to =>
      if curr_ms <? min_to then Ok (TIMED_WAIT (min_to - curr_ms), m1)
      else
        m2 ← reclaim_loop ndebug curr_ms MAX_RECLAIM_ENTRIES m1;
        Ok (RECLAIMING, m2)
  end.


(** ** Interleavings *)

Inductive op : Type :=
| Put (now : Z) (key : K) (val : V) (ms : Z)
| Remove (key : K)
| Get (now : Z) (key : K)
| Reclaim (curr_ms : Z).

Definition step (ndebug : bool) (m : expire_map) (o : op) : result expire_map :=
  match o with
  | Put now key val ms => Ok (put now key val ms m)
  | Remove key => Ok (remove key m)
  | Get now key => Ok m
  | Reclaim curr_ms =>
      r ← reclaim_iter ndebug curr_ms m; Ok r.2
  end.

Definition run (ndebug : bool) (ops : list op) (m : expire_map)
  : result expire_map :=
  for_each (step ndebug) ops m.

End expire_map.

(** ** Sample states, with [uint64_t] keys and values as in the tests *)

Definition sample_new : @expire_map Z Z _ _ := new_map.

(** Key 1 put at time 100 for 1000 ms. *)
Definition sample_one : @expire_map Z Z _ _ := put 100 1 1234 1000 sample_new.

Definition sample_ops : list (@op Z Z) :=
  [Put 100 1 1234 1000; Put 100 2 5 300; Put 150 3 6 5000; Reclaim 50;
   Put 200 4 8 100; Remove 3].

(** The state after [sample_ops]: keys 1 and 2 merged into the index, key 4
    and the removal of key 3 still in the pending log. *)
Definition sample_busy : @expire_map Z Z _ _ :=
  match run false sample_ops sample_new with
  | Ok m => m
  | AssertFail => sample_new
  end.

(** The state after [sample_ops] and one more merge. *)
Definition sample_quiet : @expire_map Z Z _ _ :=
  match run false (sample_ops ++ [Reclaim 50]) sample_new with
  | Ok m => m
  | AssertFail => sample_new
  end.



(** ** Specification vocabulary *)

Section invariant.
Context {K V : Type} `{Countable K}.

Abbreviation expire_map := (@expire_map K V _ _).
Abbreviation map_data := (@map_data V).
Abbreviation timeout_data := (@timeout_data K).

(** Key [k] sits in the bucket of deadline [d]. *)
Definition in_bucket (st : gmap Z (gset K)) (d : Z) (k : K) : Prop :=
  ∃ keys, st !! d = Some keys ∧ k ∈ keys.

(** The entry table holds [k] with deadline [d]. *)
Definition has_deadline (lm : gmap K map_data) (k : K) (d : Z) : Prop :=
  ∃ md, lm !! k = Some md ∧ timeout_ md = d.

Definition no_empty_bucket (st : gmap Z (gset K)) : Prop :=
  ∀ d keys, st !! d = Some keys → keys ≠ ∅.

(** The deadline index is the deadline-to-keys relation of the entry
    table, and has no empty bucket. *)
Definition index_consistent (lm : gmap K map_data) (st : gmap Z (gset K))
  : Prop :=
  (∀ k d, in_bucket st d k ↔ has_deadline lm k d) ∧ no_empty_bucket st.

(** The invariant of the class: merging the pending log into the index
    trips no assertion and yields the index of the entry table. *)
Definition inv (m : expire_map) : Prop :=
  ∃ st, for_each (populate_one false) (append_timeouts_ m) (sorted_timeouts_ m)
          = Ok st
        ∧ index_consistent (lookup_map_ m) st.

(** States the class can be in: those an interleaving of public calls and
    reclaimer iterations reaches from the constructor's state, in a build
    with assertions. *)
Definition reachable (m : expire_map) : Prop :=
  ∃ ops, run false ops new_map = Ok m.

(** Operations that neither write key [k] nor let the reclaimer run at or
    after time [d]. *)
Definition leaves (k : K) (d : Z) (o : @op K V) : Prop :=
  match o with
  | Put _ key _ _ => key ≠ k
  | Remove key => key ≠ k
  | Get _ _ => True
  | Reclaim curr_ms => curr_ms < d
  end.

(** No entry of the table has a deadline after [bound]. *)
Definition deadlines_below (bound : Z) (lm : gmap K map_data) : Prop :=
  ∀ k md, lm !! k = Some md → timeout_ md <= bound.

(** Every record of a pending log meets the index as the merge expects it:
    a removal record finds its key in the bucket of its deadline, an
    insertion record finds its key in no bucket of its deadline. *)
Fixpoint clean_merge (st : gmap Z (gset K)) (l : list timeout_data) : Prop :=
  match l with
  | [] => True
  | data :: l' =>
      (if overwrite_ data
       then in_bucket st (td_timeout_ data) (key_ data)
       else ¬ in_bucket st (td_timeout_ data) (key_ data))
      ∧ ∀ st', populate_one false st data = Ok st' → clean_merge st' l'
  end.

(** Operations other than a [put] of key [k]. *)
Definition no_put (k : K) (o : @op K V) : Prop :=
  match o with
  | Put _ key _ _ => key ≠ k
  | _ => True
  end.

(** The deadline index as the specification words it for a quiescent
    point, against the entry table. *)
Record quiescent_index (lm : gmap K map_data) (st : gmap Z (gset K)) : Prop := {
  (* every key of the entry table is in the bucket of its stored deadline *)
  qi_bucket : ∀ k md, lm !! k = Some md → in_bucket st (timeout_ md) k;
  (* and in no other bucket *)
  qi_unique : ∀ k md d, lm !! k = Some md → in_bucket st d k → d = timeout_ md;
  (* every key of a bucket is in the entry table *)
  qi_present : ∀ k d, in_bucket st d k → is_Some (lm !! k);
  (* no bucket has an empty key set *)
  qi_non_empty : ∀ d keys, st !! d = Some keys → keys ≠ ∅
}.

(** What one run of the eviction loop at time [curr_ms], allowed [budget]
    buckets, makes of a state [m]: the state [m'] afterwards. *)
Record evicts (curr_ms : Z) (budget : nat) (m m' : expire_map) : Prop := {
  (* the pending log and the shutdown flag are not touched *)
  ev_log : append_timeouts_ m' = append_timeouts_ m;
  ev_shutdown : shutdown_ m' = shutdown_ m;
  (* a bucket is either removed or left as it was; none is created *)
  ev_kept : ∀ d, sorted_timeouts_ m' !! d = None
                 ∨ sorted_timeouts_ m' !! d = sorted_timeouts_ m !! d;
  (* only due buckets are removed *)
  ev_due : ∀ d, is_Some (sorted_timeouts_ m !! d) →
                sorted_timeouts_ m' !! d = None → d <= curr_ms;
  (* ascending order: every removed bucket lies before every kept one *)
  ev_ascending : ∀ d d', is_Some (sorted_timeouts_ m !! d) →
                         sorted_timeouts_ m' !! d = None →
                         is_Some (sorted_timeouts_ m' !! d') → d < d';
  (* at most [budget] buckets are removed *)
  ev_bound : (base.size (sorted_timeouts_ m)
              ≤ base.size (sorted_timeouts_ m') + budget)%nat;
  (* the loop ends when the budget is used up or no due bucket is left *)
  ev_stop : base.size (sorted_timeouts_ m)
            = (base.size (sorted_timeouts_ m') + budget)%nat
            ∨ ∀ d, is_Some (sorted_timeouts_ m' !! d) → curr_ms < d;
  (* entries are only removed, never added or changed *)
  ev_entries_sub : ∀ k md, lookup_map_ m' !! k = Some md →
                           lookup_map_ m !! k = Some md;
  (* an entry goes exactly when the bucket of its deadline goes *)
  ev_entries : ∀ k md, lookup_map_ m !! k = Some md →
                       (lookup_map_ m' !! k = None
                        ↔ sorted_timeouts_ m' !! timeout_ md = None)
}.

End invariant.

(** ** The trie of [trie.h]

    A key is a C string; the model takes the characters before the
    terminating NUL as a [list ascii].  The operations are modelled as one
    thread runs them. *)

Module Trie.
Section trie.
Context {T : Type}.

(** The value a default-initialised [T] holds: the [value_] of a node no
    key ends at.  The code reads [value_] only where [terminus_] is set. *)
Context (T_default : T).

#[local] Unset Elimination Schemes.

(** [struct Node], without its lock. *)
Inductive Node : Type := mk_Node {
  key_ : ascii;
  value_ : T;
  terminus_ : bool;
  nodes_ : gmap ascii Node
}.

(** [Node(char key)] *)
Definition new_Node (key : ascii) : Node := mk_Node key T_default false ∅.

(** [Node()], the root of a new trie. *)
Definition new_root : Node := new_Node zero.

(** The node for character [c] below [root], made new if there is none:
    the first step of [insert]. *)
Definition child_for (root : Node) (c : ascii) : Node :=
  match nodes_ root !! c with
  | Some n => n
  | None => new_Node c
  end.

(** [insert(root, key, value)].  With the empty key the code reads [key[1]],
    one past the terminator: no result. *)
Fixpoint insert (root : Node) (key : list ascii) (value : T) : option Node :=
  match key with
  | [] => None
  | c :: rest =>
      let n := child_for root c in
      match rest with
      | [] =>
          Some (mk_Node (key_ root) (value_ root) (terminus_ root)
                  (<[c := mk_Node (key_ n) value true (nodes_ n)]> (nodes_ root)))
      | _ :: _ =>
          match insert n rest value with
          | Some n' =>
              Some (mk_Node (key_ root) (value_ root) (terminus_ root)
                      (<[c := n']> (nodes_ root)))
          | None => None
          end
      end
  end.

(** What [insert] does at the node [n] for the first character of the key,
    [rest] being the rest of the key: it sets the value there when the key
    ends, and descends otherwise. *)
Definition insert_below (n : Node) (rest : list ascii) (value : T) : option Node :=
  match rest with
  | [] => Some (mk_Node (key_ n) value true (nodes_ n))
  | _ :: _ => insert n rest value
  end.

(** [lookup(root, key, value)]: the result and the content of [*value]
    afterwards. *)
Fixpoint lookup (root : Node) (key : list ascii) (value : T) : bool * T :=
  match key with
  | [] => if terminus_ root then (true, value_ root) else (false, value)
  | c :: rest =>
      match nodes_ root !! c with
      | Some n => lookup n rest value
      | None => (false, value)
      end
  end.

(** [node(root, key)]; [None] is [nullptr]. *)
Fixpoint node (root : Node) (key : list ascii) : option Node :=
  match key with
  | [] => Some root
  | c :: rest =>
      match nodes_ root !! c with
      | Some n => node n rest
      | None => None
      end
  end.

(** A run of [insert] calls, as the tests make them. *)
Fixpoint insert_all (root : Node) (kvs : list (list ascii * T)) : option Node :=
  match kvs with
  | [] => Some root
  | kv :: kvs' =>
      match insert root kv.1 kv.2 with
      | Some root' => insert_all root' kvs'
      | None => None
      end
  end.

(** The map a run of [insert] calls describes: later calls overwrite. *)
Definition bindings (kvs : list (list ascii * T)) : gmap (list ascii) T :=
  foldl (λ M kv, <[kv.1 := kv.2]> M) ∅ kvs.

(** The number of nodes of a subtree. *)
Fixpoint weight (n : Node) : nat :=
  S (map_fold (λ _ c acc, (weight c + acc)%nat) 0%nat (nodes_ n)).

End trie.

Arguments Node : clear implicits.

Section prefix_match.
Context {T : Type} `{Countable T}.

(** [prefix_match_max_values_default_] *)
Definition prefix_match_max_values_default_ : nat := 10.

(** The order in which [for_each] walks the children of a node: that of the
    [unordered_map], which the language leaves open. *)
Context (children : Node T → list (Node T)).

(** The [while] loop of [prefix_match] over the deque [nodes]; [None] when
    [fuel] iterations were not enough. *)
Fixpoint bfs (fuel : nat) (nodes : list (Node T)) (values : gset T)
  : option (gset T) :=
  match fuel with
  | O => None
  | S fuel' =>
      match nodes with
      | [] => Some values
      | n :: rest =>
          let values' := if terminus_ n then {[value_ n]} ∪ values else values in
          if terminus_ n && Nat.eqb (base.size values') prefix_match_max_values_default_
          then Some values'
          else bfs fuel' (rest ++ children n) values'
      end
  end.

(** Value [v] is stored at or below node [q]: some key leads from [q] to a
    node where a key ends with value [v]. *)
Definition stored_below (q : Node T) (v : T) : Prop :=
  ∃ s d, node q s = Some d ∧ terminus_ d = true ∧ value_ d = v.

(** [prefix_match(root, key, values)]: the content of [*values] afterwards. *)
Definition prefix_match (fuel : nat) (root : Node T) (key : list ascii)
    (values : gset T) : option (gset T) :=
  match node root key with
  | None => Some values
  | Some n => bfs fuel [n] values
  end.

End prefix_match.

(** The children in the order of the model's map. *)
Definition children_in_order {T : Type} (n : Node T) : list (Node T) :=
  (map_to_list (nodes_ n)).*2.

End Trie.

(** ** Sample tries, with the keys and values of the tests *)

Definition key_f : list ascii := ["f"]%char.
Definition key_foo : list ascii := ["f"; "o"; "o"]%char.
Definition key_faa : list ascii := ["f"; "a"; "a"]%char.
Definition key_fem : list ascii := ["f"; "e"; "m"]%char.

Definition sample_inserts : list (list ascii * Z) :=
  [(key_foo, 1111); (key_faa, 2222); (key_fem, 3333); (key_foo, 4444)].

(** The trie after [sample_inserts]. *)
Definition sample_trie : Trie.Node Z :=
  match Trie.insert_all 0 (Trie.new_root 0) sample_inserts with
  | Some root => root
  | None => Trie.new_root 0
  end.

(** The tries after an insertion of [key_foo], of [key_faa], and of both. *)
Definition sample_trie_foo : Trie.Node Z :=
  match Trie.insert 0 (Trie.new_root 0) key_foo 1111 with
  | Some root => root
  | None => Trie.new_root 0
  end.

Definition sample_trie_faa : Trie.Node Z :=
  match Trie.insert 0 (Trie.new_root 0) key_faa 2222 with
  | Some root => root
  | None => Trie.new_root 0
  end.

Definition sample_trie_both : Trie.Node Z :=
  match Trie.insert 0 sample_trie_foo key_faa 2222 with
  | Some root => root
  | None => Trie.new_root 0
  end.


(** ** Auxiliary lemmas *)

Lemma for_each_app {A S : Type} (f : S → A → result S) (l1 l2 : list A) (s : S) :
  for_each f (l1 ++ l2) s = (s' ← for_each f l1 s; for_each f l2 s').
Proof.
  revert s. induction l1 as [|x l1 IH]; intros s; simpl; [done|].
  destruct (f s x) as [s'|]; simpl; [apply IH | done].
Qed.

Lemma add64_range (a b : Z) : is_uint64 (add64 a b).
Proof.
  unfold is_uint64, add64, UINT64_MAX.
  pose proof (Z.mod_pos_bound (a + b) (2 ^ 64) ltac:(lia)). lia.
Qed.

Lemma add64_small (a b : Z) : 0 <= a + b <= UINT64_MAX → add64 a b = a + b.
Proof.
  unfold add64, UINT64_MAX. intros Hr. apply Z.mod_small. lia.
Qed.

Section order.
Context {K : Type} `{Countable K}.

Lemma min_of_None (l : list Z) : min_of l = None ↔ l = [].
Proof.
  destruct l as [|x l]; simpl; [done|].
  unfold least. by destruct (min_of l).
Qed.

Lemma min_of_Some (l : list Z) (d : Z) :
  min_of l = Some d → d ∈ l ∧ ∀ x, x ∈ l → d <= x.
Proof.
  revert d. induction l as [|y l IH]; intros d; simpl; [done|].
  unfold least. destruct (min_of l) as [a|] eqn:Ha.
  - destruct (IH a eq_refl) as [Hin Hle]. intros [= <-]. split.
    + destruct (Z.min_spec y a) as [[_ ->]|[_ ->]]; [left | by right].
    + intros x [->|Hx]%elem_of_cons; [lia|]. specialize (Hle x Hx). lia.
  - apply min_of_None in Ha as ->. intros [= <-]. split; [left|].
    intros x [->|Hx]%elem_of_cons; [lia | by apply elem_of_nil in Hx].
Qed.

Lemma elem_of_fst_map_to_list (st : gmap Z (gset K)) (d : Z) :
  d ∈ (map_to_list st).*1 ↔ is_Some (st !! d).
Proof.
  rewrite list_elem_of_fmap. split.
  - intros [[d' keys] [-> Hin]]. apply elem_of_map_to_list in Hin. eauto.
  - intros [keys Hk]. exists (d, keys). split; [done|].
    by apply elem_of_map_to_list.
Qed.

Lemma min_timeout_None (st : gmap Z (gset K)) :
  min_timeout st = None ↔ st = ∅.
Proof.
  unfold min_timeout. rewrite min_of_None. split.
  - intros Hl. apply fmap_nil_inv in Hl. by apply map_to_list_empty_iff.
  - intros ->. by rewrite map_to_list_empty.
Qed.

Lemma min_timeout_Some (st : gmap Z (gset K)) (d : Z) :
  min_timeout st = Some d →
  is_Some (st !! d) ∧ ∀ d', is_Some (st !! d') → d <= d'.
Proof.
  unfold min_timeout. intros [Hin Hle]%min_of_Some. split.
  - by apply elem_of_fst_map_to_list.
  - intros d' Hd'. by apply Hle, elem_of_fst_map_to_list.
Qed.

Lemma begin_None (st : gmap Z (gset K)) : begin_ st = None ↔ st = ∅.
Proof.
  unfold begin_. destruct (min_timeout st) as [d|] eqn:Hm.
  - destruct (min_timeout_Some _ _ Hm) as [[keys ->] _]. split; [done|].
    intros ->. rewrite (proj2 (min_timeout_None ∅) eq_refl) in Hm. done.
  - by apply min_timeout_None in Hm.
Qed.

Lemma begin_Some (st : gmap Z (gset K)) (d : Z) (keys : gset K) :
  begin_ st = Some (d, keys) →
  st !! d = Some keys ∧ ∀ d', is_Some (st !! d') → d <= d'.
Proof.
  unfold begin_. destruct (min_timeout st) as [d0|] eqn:Hm; [|done].
  destruct (min_timeout_Some _ _ Hm) as [[keys0 Hk] Hle].
  rewrite Hk. by intros [= <- <-].
Qed.

End order.


Section merge.
Context {K V : Type} `{Countable K}.

Abbreviation expire_map' := (@expire_map K V _ _).
Abbreviation map_data' := (@map_data V).

Lemma assert_true (ndebug : bool) : assert_ ndebug true = Ok tt.
Proof. unfold assert_. by rewrite orb_true_r. Qed.

Lemma in_bucket_insert (st : gmap Z (gset K)) d keys d' k :
  in_bucket (<[d := keys]> st) d' k ↔
  (d' = d ∧ k ∈ keys) ∨ (d' ≠ d ∧ in_bucket st d' k).
Proof.
  unfold in_bucket. destruct (decide (d' = d)) as [->|Hne].
  - rewrite lookup_insert_eq. naive_solver.
  - rewrite lookup_insert_ne by done. naive_solver.
Qed.

Lemma in_bucket_delete (st : gmap Z (gset K)) d d' k :
  in_bucket (delete d st) d' k ↔ d' ≠ d ∧ in_bucket st d' k.
Proof.
  unfold in_bucket. destruct (decide (d' = d)) as [->|Hne].
  - rewrite lookup_delete_eq. naive_solver.
  - rewrite lookup_delete_ne by done. naive_solver.
Qed.

Lemma no_empty_bucket_insert (st : gmap Z (gset K)) d keys :
  keys ≠ ∅ → no_empty_bucket st → no_empty_bucket (<[d := keys]> st).
Proof.
  intros Hk Hst d' keys'. destruct (decide (d' = d)) as [->|Hne].
  - rewrite lookup_insert_eq. by intros [= <-].
  - rewrite lookup_insert_ne by done. apply Hst.
Qed.

Lemma no_empty_bucket_delete (st : gmap Z (gset K)) d :
  no_empty_bucket st → no_empty_bucket (delete d st).
Proof.
  intros Hst d' keys'. destruct (decide (d' = d)) as [->|Hne].
  - by rewrite lookup_delete_eq.
  - rewrite lookup_delete_ne by done. apply Hst.
Qed.

(** A removal record whose key is in the bucket of its deadline. *)
Lemma populate_one_removal ndebug (st : gmap Z (gset K)) k d :
  in_bucket st d k → no_empty_bucket st →
  ∃ st', populate_one ndebug st (mk_timeout_data k d true) = Ok st'
    ∧ no_empty_bucket st'
    ∧ ∀ k' d', in_bucket st' d' k' ↔ in_bucket st d' k' ∧ ¬ (k' = k ∧ d' = d).
Proof.
  intros (keys & Hst & Hk) Hne. unfold populate_one; simpl. rewrite Hst.
  rewrite (bool_decide_eq_true_2 (k ∈ keys)) by done. rewrite assert_true; simpl.
  case_bool_decide as Hempty.
  - eexists; split; [done|]. split; [by apply no_empty_bucket_delete|].
    intros k' d'. rewrite in_bucket_delete. split.
    + intros [Hd Hin]. split; [done|]. naive_solver.
    + intros [Hin Hnot]. split; [|done]. intros ->.
      destruct Hin as (keys' & Hst' & Hk'). rewrite Hst in Hst'.
      injection Hst' as <-. apply Hnot. split; [|done]. set_solver.
  - eexists; split; [done|]. split; [by apply no_empty_bucket_insert|].
    intros k' d'. rewrite in_bucket_insert. split.
    + intros [[-> Hin]|[Hd Hin]].
      * split; [exists keys; set_solver | set_solver].
      * split; [done | naive_solver].
    + intros [(keys' & Hst' & Hk') Hnot]. destruct (decide (d' = d)) as [->|Hd].
      * left. split; [done|]. rewrite Hst in Hst'. injection Hst' as <-.
        apply elem_of_difference. split; [done|]. set_solver.
      * right. split; [done|]. by exists keys'.
Qed.

(** An insertion record whose key is not yet in the bucket of its deadline. *)
Lemma populate_one_insertion ndebug (st : gmap Z (gset K)) k d :
  ¬ in_bucket st d k → no_empty_bucket st →
  ∃ st', populate_one ndebug st (mk_timeout_data k d false) = Ok st'
    ∧ no_empty_bucket st'
    ∧ ∀ k' d', in_bucket st' d' k' ↔ in_bucket st d' k' ∨ (k' = k ∧ d' = d).
Proof.
  intros Hnot Hne. unfold populate_one; simpl.
  destruct (st !! d) as [keys|] eqn:Hst.
  - assert (k ∉ keys) as Hk by (intros Hk; apply Hnot; by exists keys).
    rewrite (bool_decide_eq_true_2 (k ∉ keys)) by done. rewrite assert_true; simpl.
    eexists; split; [done|]. split.
    { apply no_empty_bucket_insert; [set_solver | done]. }
    intros k' d'. rewrite in_bucket_insert. split.
    + intros [[-> [Hin| ->%elem_of_singleton]%elem_of_union]|[Hd Hin]].
      * left. by exists keys.
      * by right.
      * by left.
    + intros [(keys' & Hst' & Hk')|[-> ->]].
      * destruct (decide (d' = d)) as [->|Hd].
        -- left. split; [done|]. rewrite Hst in Hst'. injection Hst' as <-.
           set_solver.
        -- right. split; [done|]. by exists keys'.
      * left. split; [done | set_solver].
  - eexists; split; [done|]. split.
    { apply no_empty_bucket_insert; [set_solver | done]. }
    intros k' d'. rewrite in_bucket_insert. split.
    + intros [[-> ->%elem_of_singleton]|[Hd Hin]]; [by right | by left].
    + intros [(keys' & Hst' & Hk')|[-> ->]].
      * right. split; [|by exists keys']. intros ->. by rewrite Hst in Hst'.
      * left. split; [done | set_solver].
Qed.

Lemma has_deadline_fun (lm : gmap K map_data') k d1 d2 :
  has_deadline lm k d1 → has_deadline lm k d2 → d1 = d2.
Proof.
  intros (md1 & H1 & <-) (md2 & H2 & <-). rewrite H1 in H2. by injection H2 as ->.
Qed.

Lemma has_deadline_delete (lm : gmap K map_data') k k' d' :
  has_deadline (delete k lm) k' d' ↔ has_deadline lm k' d' ∧ k' ≠ k.
Proof.
  unfold has_deadline. destruct (decide (k' = k)) as [->|Hne].
  - rewrite lookup_delete_eq. naive_solver.
  - rewrite lookup_delete_ne by done. naive_solver.
Qed.

Lemma has_deadline_insert (lm : gmap K map_data') k v d k' d' :
  has_deadline (<[k := mk_map_data v d]> lm) k' d' ↔
  (k' = k ∧ d' = d) ∨ (k' ≠ k ∧ has_deadline lm k' d').
Proof.
  unfold has_deadline. destruct (decide (k' = k)) as [->|Hne].
  - rewrite lookup_insert_eq. split.
    + intros (md & [= <-] & <-). by left.
    + intros [[_ ->]|[? _]]; [|done]. by eexists.
  - rewrite lookup_insert_ne by done. naive_solver.
Qed.

(** Index consistency across the removal of a key and its record. *)
Lemma consistent_removal ndebug (lm : gmap K map_data') st k md :
  index_consistent lm st → lm !! k = Some md →
  ∃ st', populate_one ndebug st (mk_timeout_data k (timeout_ md) true) = Ok st'
    ∧ index_consistent (delete k lm) st'.
Proof.
  intros [Hrel Hne] Hk.
  assert (has_deadline lm k (timeout_ md)) as Hhd by by exists md.
  destruct (populate_one_removal ndebug st k (timeout_ md)) as (st' & Hp & Hne' & Hin);
    [by apply Hrel | done |].
  exists st'. split; [done|]. split; [|done].
  intros k' d'. rewrite Hin, Hrel, has_deadline_delete. split.
  - intros [Hhd' Hnot]. split; [done|]. intros ->. apply Hnot. split; [done|].
    by eapply has_deadline_fun.
  - intros [Hhd' Hnek]. split; [done|]. by intros [-> _].
Qed.

(** Index consistency across the insertion of a new key and its record. *)
Lemma consistent_insertion ndebug (lm : gmap K map_data') st k v d :
  index_consistent lm st → lm !! k = None →
  ∃ st', populate_one ndebug st (mk_timeout_data k d false) = Ok st'
    ∧ index_consistent (<[k := mk_map_data v d]> lm) st'.
Proof.
  intros [Hrel Hne] Hk.
  destruct (populate_one_insertion ndebug st k d) as (st' & Hp & Hne' & Hin);
    [|done|].
  { rewrite Hrel. intros (md & Hmd & _). by rewrite Hk in Hmd. }
  exists st'. split; [done|]. split; [|done].
  intros k' d'. rewrite Hin, Hrel, has_deadline_insert. split.
  - intros [Hhd|[-> ->]]; [|by left]. right. split; [|done].
    intros ->. destruct Hhd as (md & Hmd & _). by rewrite Hk in Hmd.
  - intros [[-> ->]|[Hnek Hhd]]; [by right | by left].
Qed.

End merge.


Section preservation.
Context {K V : Type} `{Countable K}.

Abbreviation expire_map'' := (@expire_map K V _ _).
Abbreviation map_data'' := (@map_data V).

(** What passes in a build with assertions passes alike without them. *)
Lemma populate_one_ndebug ndebug (st st' : gmap Z (gset K)) data :
  populate_one false st data = Ok st' → populate_one ndebug st data = Ok st'.
Proof.
  unfold populate_one. destruct (st !! td_timeout_ data) as [keys|]; [|done].
  destruct (overwrite_ data).
  - destruct (bool_decide (key_ data ∈ keys)); [|by cbn]. by rewrite !assert_true.
  - destruct (bool_decide (key_ data ∉ keys)); [|by cbn]. by rewrite !assert_true.
Qed.

Lemma for_each_populate_ndebug ndebug l (st st' : gmap Z (gset K)) :
  for_each (populate_one false) l st = Ok st' →
  for_each (populate_one ndebug) l st = Ok st'.
Proof.
  revert st. induction l as [|data l IH]; intros st; simpl; [done|].
  destruct (populate_one false st data) as [st1|] eqn:H1; [|done]. simpl.
  rewrite (populate_one_ndebug ndebug _ _ _ H1). simpl. apply IH.
Qed.

Lemma inv_new_map : inv (new_map : expire_map'').
Proof.
  exists ∅. split; [done|]. split; [|by intros d keys; rewrite lookup_empty].
  intros k d. unfold in_bucket, has_deadline. setoid_rewrite lookup_empty.
  naive_solver.
Qed.

Lemma inv_remove_internal (m : expire_map'') key :
  inv m → inv (remove_internal key m).
Proof.
  intros (st & Hfe & Hc). unfold remove_internal.
  destruct (lookup_map_ m !! key) as [md|] eqn:Hk; [|by exists st].
  destruct (consistent_removal false _ _ _ _ Hc Hk) as (st' & Hp & Hc').
  exists st'. simpl. split; [|done].
  rewrite for_each_app, Hfe. simpl. by rewrite Hp.
Qed.

Lemma lookup_remove_internal (m : expire_map'') key :
  lookup_map_ (remove_internal key m) = delete key (lookup_map_ m).
Proof.
  unfold remove_internal. destruct (lookup_map_ m !! key) eqn:Hk; [done|].
  by rewrite delete_id.
Qed.

(** The entry table after [put]. *)
Lemma lookup_put (m : expire_map'') now key val ms :
  lookup_map_ (put now key val ms m)
  = <[key := mk_map_data val (add64 now ms)]> (lookup_map_ m).
Proof.
  unfold put, map_insert. cbv zeta.
  destruct (lookup_map_ m !! key) as [md|] eqn:Hk; cbn [lookup_map_].
  - rewrite lookup_remove_internal, lookup_delete_eq.
    by rewrite insert_delete_eq.
  - by rewrite Hk.
Qed.

Lemma inv_put (m : expire_map'') now key val ms :
  inv m → inv (put now key val ms m).
Proof.
  intros Hinv.
  assert (inv (remove_internal key m)) as (st & Hfe & Hc)
    by by apply inv_remove_internal.
  assert (lookup_map_ (remove_internal key m) !! key = None) as Hnone
    by by rewrite lookup_remove_internal, lookup_delete_eq.
  destruct (consistent_insertion false _ _ key val (add64 now ms) Hc Hnone)
    as (st' & Hp & Hc').
  assert (put now key val ms m = put now key val ms (remove_internal key m)) as ->.
  { unfold put at 1 2. cbv zeta. rewrite Hnone.
    destruct (lookup_map_ m !! key) as [md|] eqn:Hk; [done|].
    unfold remove_internal. by rewrite Hk. }
  exists st'. unfold put. cbv zeta. rewrite Hnone. simpl. split.
  - rewrite for_each_app, Hfe. simpl. by rewrite Hp.
  - unfold map_insert. by rewrite Hnone.
Qed.

(** The merge on a state that satisfies the invariant. *)
Lemma populate_inv ndebug (m : expire_map'') :
  inv m →
  ∃ st, populate_sorted_timeouts ndebug m
          = Ok (mk_expire_map [] st (lookup_map_ m) (shutdown_ m))
        ∧ index_consistent (lookup_map_ m) st.
Proof.
  intros (st & Hfe & Hc). exists st. split; [|done].
  unfold populate_sorted_timeouts.
  by rewrite (for_each_populate_ndebug ndebug _ _ _ Hfe).
Qed.

Lemma erase_key_present ndebug (lm : gmap K map_data'') k md :
  lm !! k = Some md → erase_key ndebug lm k = Ok (delete k lm).
Proof. intros Hmd. unfold erase_key. rewrite Hmd. cbn. by rewrite assert_true. Qed.

(** Erasing a duplicate-free list of keys that are all present. *)
Lemma for_each_erase ndebug (l : list K) (lm : gmap K map_data'') :
  NoDup l → (∀ k, k ∈ l → is_Some (lm !! k)) →
  ∃ lm', for_each (erase_key ndebug) l lm = Ok lm'
    ∧ ∀ k, lm' !! k = if decide (k ∈ l) then None else lm !! k.
Proof.
  revert lm. induction l as [|x l IH]; intros lm Hnd Hin.
  - exists lm. split; [done|]. intros k.
    destruct (decide (k ∈ [])) as [Hk|]; [by apply elem_of_nil in Hk | done].
  - apply NoDup_cons in Hnd as [Hx Hnd].
    destruct (Hin x) as [md Hmd]; [left|].
    cbn [for_each]. rewrite (erase_key_present _ _ _ _ Hmd). cbn.
    destruct (IH (delete x lm) Hnd) as (lm' & Hfe & Hlk).
    { intros k Hk. rewrite lookup_delete_ne by (intros ->; done).
      apply Hin. by right. }
    exists lm'. split; [done|]. intros k. rewrite Hlk.
    destruct (decide (k ∈ l)) as [Hk|Hk];
      destruct (decide (k ∈ x :: l)) as [Hk'|Hk']; try done.
    + exfalso. apply Hk'. by right.
    + apply elem_of_cons in Hk' as [->|?]; [|done]. by rewrite lookup_delete_eq.
    + rewrite lookup_delete_ne; [done|]. intros ->. apply Hk'. left.
Qed.

(** Evicting one bucket of a consistent index. *)
Lemma evict_bucket ndebug (lm : gmap K map_data'') st d keys :
  index_consistent lm st → st !! d = Some keys →
  ∃ lm', for_each (erase_key ndebug) (elements keys) lm = Ok lm'
    ∧ index_consistent lm' (delete d st)
    ∧ ∀ k, lm' !! k = match lm !! k with
                       | Some md => if decide (timeout_ md = d) then None else Some md
                       | None => None
                       end.
Proof.
  intros [Hrel Hne] Hd.
  destruct (for_each_erase ndebug (elements keys) lm) as (lm' & Hfe & Hlk).
  { apply NoDup_elements. }
  { intros k Hk%elem_of_elements.
    destruct (proj1 (Hrel k d)) as (md & Hmd & _); [by exists keys | eauto]. }
  assert (∀ k, lm' !! k = match lm !! k with
                          | Some md => if decide (timeout_ md = d) then None else Some md
                          | None => None
                          end) as Hlk'.
  { intros k. rewrite Hlk. destruct (lm !! k) as [md|] eqn:Hmd.
    - destruct (decide (timeout_ md = d)) as [Hto|Hto].
      + rewrite decide_True; [done|]. apply elem_of_elements.
        destruct (proj2 (Hrel k d)) as (keys' & Hk' & Hin); [by exists md|].
        rewrite Hd in Hk'. by injection Hk' as ->.
      + rewrite decide_False; [done|]. intros Hin%elem_of_elements. apply Hto.
        destruct (proj1 (Hrel k d)) as (md' & Hmd' & Hto'); [by exists keys|].
        rewrite Hmd in Hmd'. by injection Hmd' as ->.
    - by destruct (decide _). }
  exists lm'. split; [done|]. split; [|done]. split; [|by apply no_empty_bucket_delete].
  intros k d'. rewrite in_bucket_delete, Hrel. unfold has_deadline.
  rewrite Hlk'. split.
  - intros [Hd' (md & Hmd & Hto)]. exists md. rewrite Hmd.
    rewrite decide_False by congruence. done.
  - intros (md & Hmd & Hto). destruct (lm !! k) as [md'|]; [|done].
    destruct (decide (timeout_ md' = d)); [done|]. injection Hmd as ->.
    split; [congruence | by exists md].
Qed.

End preservation.


Section reclaimer.
Context {K V : Type} `{Countable K}.

Abbreviation expire_map3 := (@expire_map K V _ _).

(** The loop that evicts nothing. *)
Lemma evicts_nothing curr_ms budget (m : expire_map3) :
  index_consistent (lookup_map_ m) (sorted_timeouts_ m) →
  budget = O ∨ (∀ d, is_Some (sorted_timeouts_ m !! d) → curr_ms < d) →
  evicts curr_ms budget m m.
Proof.
  intros [Hrel _] Hstop. split; try done.
  - by right.
  - intros d Hin Hout. rewrite Hout in Hin. by destruct Hin.
  - intros d d' Hin Hout. rewrite Hout in Hin. by destruct Hin.
  - lia.
  - destruct Hstop as [->|Hfut]; [left; lia | by right].
  - intros k md Hk. split.
    + intros Hn. by rewrite Hk in Hn.
    + intros Hn. destruct (proj2 (Hrel k (timeout_ md))) as (keys & Hb & _);
        [by exists md | by rewrite Hb in Hn].
Qed.

(** The eviction loop on a state whose index is consistent. *)
Lemma reclaim_loop_spec ndebug curr_ms budget (m : expire_map3) :
  index_consistent (lookup_map_ m) (sorted_timeouts_ m) →
  ∃ m', reclaim_loop ndebug curr_ms budget m = Ok m'
    ∧ index_consistent (lookup_map_ m') (sorted_timeouts_ m')
    ∧ evicts curr_ms budget m m'.
Proof.
  revert m. induction budget as [|budget IH]; intros m Hc.
  { exists m. split; [done|]. split; [done|].
    apply evicts_nothing; [done | by left]. }
  cbn [reclaim_loop].
  destruct (begin_ (sorted_timeouts_ m)) as [[d keys]|] eqn:Hb.
  2: { exists m. apply begin_None in Hb. split; [done|]. split; [done|].
       apply evicts_nothing; [done|].
       right. intros d. rewrite Hb, lookup_empty. by intros [??]. }
  apply begin_Some in Hb as [Hd Hmin].
  destruct (Z.leb_spec d curr_ms) as [Hdue|Hfut].
  2: { exists m. split; [done|]. split; [done|].
       apply evicts_nothing; [done|].
       right. intros d' Hd'. specialize (Hmin d' Hd'). lia. }
  destruct (evict_bucket ndebug _ _ _ _ Hc Hd) as (lm & Hfe & Hc1 & Hlm).
  rewrite Hfe. cbn.
  set (m1 := mk_expire_map (append_timeouts_ m)
               (delete d (sorted_timeouts_ m)) lm (shutdown_ m)).
  destruct (IH m1 Hc1) as (m' & Hloop & Hc' & Hev).
  exists m'. split; [done|]. split; [done|].
  destruct Hev as [Hlog Hsh Hkept Hdue' Hasc Hbound Hstop Hsub Hent].
  cbn [m1 append_timeouts_ sorted_timeouts_ lookup_map_ shutdown_] in *.
  assert (base.size (sorted_timeouts_ m)
          = S (base.size (delete d (sorted_timeouts_ m)))) as Hsize.
  { rewrite map_size_delete_Some by eauto.
    pose proof (map_size_ne_0_lookup_2 (sorted_timeouts_ m) d ltac:(eauto)). lia. }
  assert (sorted_timeouts_ m' !! d = None) as Hgone.
  { destruct (Hkept d) as [?|Heq]; [done|]. by rewrite Heq, lookup_delete_eq. }
  split; try done.
  - intros d'. destruct (Hkept d') as [?|Heq]; [by left|].
    destruct (decide (d' = d)) as [->|Hne]; [by left|].
    right. by rewrite Heq, lookup_delete_ne.
  - intros d' Hin Hout. destruct (decide (d' = d)) as [->|Hne]; [done|].
    apply Hdue'; [|done]. by rewrite lookup_delete_ne.
  - intros d1 d2 Hin Hout Hk.
    assert (d2 ≠ d) as Hne2 by (intros ->; rewrite Hgone in Hk; by destruct Hk).
    assert (is_Some (sorted_timeouts_ m !! d2)) as Hin2.
    { destruct (Hkept d2) as [Hn|Heq].
      - rewrite Hn in Hk. by destruct Hk.
      - rewrite Heq, lookup_delete_ne in Hk by done. done. }
    destruct (decide (d1 = d)) as [->|Hne1].
    + specialize (Hmin d2 Hin2). lia.
    + apply Hasc; [|done..]. by rewrite lookup_delete_ne.
  - lia.
  - destruct Hstop as [Heq|Hfut]; [left; lia | by right].
  - intros k md Hk. specialize (Hsub k md Hk). rewrite Hlm in Hsub.
    destruct (lookup_map_ m !! k) as [md'|]; [|done].
    by destruct (decide (timeout_ md' = d)).
  - intros k md Hk. destruct (decide (timeout_ md = d)) as [Hto|Hto].
    + rewrite Hto, Hgone. split; [done|]. intros _.
      destruct (lookup_map_ m' !! k) as [md'|] eqn:Hk'; [|done].
      specialize (Hsub k md' Hk'). rewrite Hlm, Hk in Hsub.
      by rewrite decide_True in Hsub.
    + apply Hent. rewrite Hlm, Hk. by rewrite decide_False.
Qed.

(** One reclaimer iteration keeps the invariant and trips no assertion. *)
Lemma reclaim_iter_inv ndebug curr_ms (m : expire_map3) :
  inv m → ∃ e m', reclaim_iter ndebug curr_ms m = Ok (e, m') ∧ inv m'.
Proof.
  intros Hinv. destruct (populate_inv ndebug m Hinv) as (st & Hp & Hc).
  unfold reclaim_iter. rewrite Hp. cbn -[reclaim_loop].
  set (m1 := mk_expire_map [] st (lookup_map_ m) (shutdown_ m)).
  assert (inv m1) as Hinv1 by by exists st.
  destruct (min_timeout st) as [min_to|].
  - destruct (curr_ms <? min_to); [by eauto|].
    destruct (reclaim_loop_spec ndebug curr_ms MAX_RECLAIM_ENTRIES m1 Hc)
      as (m' & Hloop & Hc' & Hev).
    rewrite Hloop. cbn. exists RECLAIMING, m'. split; [done|].
    exists (sorted_timeouts_ m'). rewrite (ev_log _ _ _ _ Hev). by split.
  - destruct (shutdown_ m); eauto.
Qed.

Lemma step_inv ndebug (m : expire_map3) (o : op) :
  inv m → ∃ m', step ndebug m o = Ok m' ∧ inv m'.
Proof.
  intros Hinv. destruct o as [now key val ms|key|now key|curr_ms]; cbn.
  - eexists; split; [done|]. by apply inv_put.
  - eexists; split; [done|]. by apply inv_remove_internal.
  - eauto.
  - destruct (reclaim_iter_inv ndebug curr_ms m Hinv) as (e & m' & Hr & Hinv').
    rewrite Hr. cbn. eauto.
Qed.

Lemma run_inv ndebug (ops : list op) (m : expire_map3) :
  inv m → ∃ m', run ndebug ops m = Ok m' ∧ inv m'.
Proof.
  revert m. induction ops as [|o ops IH]; intros m Hinv; [by exists m|].
  destruct (step_inv ndebug m o Hinv) as (m1 & Hs & Hinv1).
  unfold run. cbn [for_each]. rewrite Hs. cbn. by apply IH.
Qed.

Lemma reachable_inv (m : expire_map3) : reachable m → inv m.
Proof.
  intros [ops Hrun].
  destruct (run_inv false ops new_map inv_new_map) as (m' & Hrun' & Hinv).
  rewrite Hrun in Hrun'. by injection Hrun' as ->.
Qed.

End reclaimer.


Section rounds.
Context {K V : Type} `{Countable K}.

Abbreviation expire_map4 := (@expire_map K V _ _).
Abbreviation map_data4 := (@map_data V).

(** In a consistent index every bucket holds the key of some entry. *)
Lemma bucket_entry (lm : gmap K map_data4) st d :
  index_consistent lm st → is_Some (st !! d) →
  ∃ k md, lm !! k = Some md ∧ timeout_ md = d.
Proof.
  intros [Hrel Hne] [keys Hd].
  destruct (set_choose_L keys (Hne _ _ Hd)) as [k Hk].
  destruct (proj1 (Hrel k d)) as (md & Hmd & Hto); [by exists keys | eauto].
Qed.

(** Only one index is consistent with a given entry table. *)
Lemma index_consistent_unique (lm : gmap K map_data4) st1 st2 :
  index_consistent lm st1 → index_consistent lm st2 → st1 = st2.
Proof.
  intros [Hrel1 Hne1] [Hrel2 Hne2].
  assert (∀ sta stb d (keys : gset K),
    (∀ k d, in_bucket sta d k ↔ has_deadline lm k d) →
    (∀ k d, in_bucket stb d k ↔ has_deadline lm k d) →
    no_empty_bucket sta →
    sta !! d = Some keys → ∃ keys', stb !! d = Some keys' ∧ keys ⊆ keys') as Hsub.
  { intros sta stb d keys Ha Hb Hnea Hd.
    destruct (set_choose_L keys (Hnea _ _ Hd)) as [k Hk].
    destruct (proj2 (Hb k d)) as (keys' & Hd' & _).
    { apply Ha. by exists keys. }
    exists keys'. split; [done|]. intros k' Hk'.
    destruct (proj2 (Hb k' d)) as (keys'' & Hd'' & Hin).
    { apply Ha. by exists keys. }
    rewrite Hd' in Hd''. by injection Hd'' as ->. }
  apply map_eq. intros d.
  destruct (st1 !! d) as [keys1|] eqn:H1; destruct (st2 !! d) as [keys2|] eqn:H2.
  - destruct (Hsub st1 st2 d keys1 Hrel1 Hrel2 Hne1 H1) as (k2 & Hk2 & Hs12).
    destruct (Hsub st2 st1 d keys2 Hrel2 Hrel1 Hne2 H2) as (k1 & Hk1 & Hs21).
    rewrite H2 in Hk2. rewrite H1 in Hk1.
    injection Hk2 as <-. injection Hk1 as <-. f_equal. set_solver.
  - destruct (Hsub st1 st2 d keys1 Hrel1 Hrel2 Hne1 H1) as (k2 & Hk2 & _).
    by rewrite H2 in Hk2.
  - destruct (Hsub st2 st1 d keys2 Hrel2 Hrel1 Hne2 H2) as (k1 & Hk1 & _).
    by rewrite H1 in Hk1.
  - done.
Qed.

(** The working form of the quiescent-point property and the form the
    specification words say the same. *)
Lemma index_consistent_quiescent (lm : gmap K map_data4) st :
  index_consistent lm st ↔ quiescent_index lm st.
Proof.
  split.
  - intros [Hrel Hne]. split; [| | |done].
    + intros k md Hk. apply Hrel. by exists md.
    + intros k md d Hk Hin. apply Hrel in Hin.
      eapply has_deadline_fun; [done|]. by exists md.
    + intros k d Hin. apply Hrel in Hin as (md & Hmd & _). eauto.
  - intros [Hb Hu Hp Hne]. split; [|done]. intros k d. split.
    + intros Hin. destruct (Hp k d Hin) as [md Hmd]. exists md.
      split; [done|]. symmetry. by eapply Hu.
    + intros (md & Hmd & <-). by apply Hb.
Qed.

(** One iteration of the reclaimer from a state that satisfies the
    invariant: the merge, how the iteration ends, and the state it leaves. *)
Lemma reclaim_iter_spec ndebug curr_ms (m : expire_map4) :
  inv m →
  ∃ st1 e m',
    let m1 := mk_expire_map [] st1 (lookup_map_ m) (shutdown_ m) in
    populate_sorted_timeouts ndebug m = Ok m1
    ∧ index_consistent (lookup_map_ m) st1
    ∧ reclaim_iter ndebug curr_ms m = Ok (e, m')
    ∧ evicts curr_ms MAX_RECLAIM_ENTRIES m1 m'
    ∧ index_consistent (lookup_map_ m') (sorted_timeouts_ m')
    ∧ match e with
      | STOPPED => st1 = ∅ ∧ shutdown_ m = true ∧ m' = m1
      | EMPTY_WAIT => st1 = ∅ ∧ shutdown_ m = false ∧ m' = m1
      | TIMED_WAIT diff =>
          ∃ min_to, min_timeout st1 = Some min_to ∧ curr_ms < min_to
                    ∧ diff = min_to - curr_ms ∧ m' = m1
      | RECLAIMING =>
          ∃ min_to, min_timeout st1 = Some min_to ∧ min_to <= curr_ms
      end.
Proof.
  intros Hinv. destruct (populate_inv ndebug m Hinv) as (st & Hp & Hc).
  exists st. unfold reclaim_iter. rewrite Hp. cbn -[reclaim_loop].
  set (m1 := mk_expire_map [] st (lookup_map_ m) (shutdown_ m)).
  destruct (min_timeout st) as [min_to|] eqn:Hmin.
  - destruct (Z.ltb_spec curr_ms min_to) as [Hlt|Hge].
    + exists (TIMED_WAIT (min_to - curr_ms)), m1. split_and!; try done.
      * apply evicts_nothing; [done|]. right. intros d Hd.
        apply min_timeout_Some in Hmin as [_ Hle]. specialize (Hle d Hd). lia.
      * by exists min_to.
    + destruct (reclaim_loop_spec ndebug curr_ms MAX_RECLAIM_ENTRIES m1 Hc)
        as (m' & Hloop & Hc' & Hev).
      rewrite Hloop. cbn. exists RECLAIMING, m'. split_and!; try done.
      by exists min_to.
  - apply min_timeout_None in Hmin as ->.
    assert (evicts curr_ms MAX_RECLAIM_ENTRIES m1 m1) as Hev.
    { apply evicts_nothing; [done|]. right. intros d.
      cbn. rewrite lookup_empty. by intros [??]. }
    destruct (shutdown_ m) eqn:Hsh.
    + exists STOPPED, m1. by split_and!.
    + exists EMPTY_WAIT, m1. by split_and!.
Qed.

(** An iteration leaves the entries whose deadline is after [curr_ms]. *)
Lemma reclaim_iter_keeps ndebug curr_ms (m : expire_map4) k md :
  inv m → lookup_map_ m !! k = Some md → curr_ms < timeout_ md →
  ∃ e m', reclaim_iter ndebug curr_ms m = Ok (e, m') ∧ inv m'
          ∧ lookup_map_ m' !! k = Some md.
Proof.
  intros Hinv Hk Hlt.
  destruct (reclaim_iter_spec ndebug curr_ms m Hinv)
    as (st1 & e & m' & _ & Hc1 & Hr & Hev & Hc' & _).
  exists e, m'. split; [done|]. split.
  { exists (sorted_timeouts_ m'). by rewrite (ev_log _ _ _ _ Hev). }
  destruct (lookup_map_ m' !! k) as [md'|] eqn:Hk'.
  - pose proof (ev_entries_sub _ _ _ _ Hev k md' Hk') as Hsub. cbn in Hsub.
    congruence.
  - apply (ev_entries _ _ _ _ Hev k md Hk) in Hk'. cbn in Hk'.
    assert (is_Some (st1 !! timeout_ md)) as Hin.
    { destruct (proj2 (proj1 Hc1 k (timeout_ md))) as (keys & Hb & _);
        [by exists md | eauto]. }
    pose proof (ev_due _ _ _ _ Hev (timeout_ md) Hin Hk') as Hdue. lia.
Qed.

(** An entry survives the operations that leave its key alone while the
    reclaimer runs before its deadline. *)
Lemma entry_stable ndebug (ops : list op) (m : expire_map4) k md :
  inv m → lookup_map_ m !! k = Some md →
  Forall (leaves k (timeout_ md)) ops →
  ∃ m', run ndebug ops m = Ok m' ∧ inv m' ∧ lookup_map_ m' !! k = Some md.
Proof.
  revert m. induction ops as [|o ops IH]; intros m Hinv Hk Hops.
  { by exists m. }
  apply Forall_cons in Hops as [Ho Hops].
  assert (∃ m1, step ndebug m o = Ok m1 ∧ inv m1
                ∧ lookup_map_ m1 !! k = Some md) as (m1 & Hs & Hinv1 & Hk1).
  { destruct o as [now key val ms|key|now key|curr_ms]; cbn in Ho |- *.
    - eexists. split; [done|]. split; [by apply inv_put|].
      by rewrite lookup_put, lookup_insert_ne.
    - eexists. split; [done|]. split; [by apply inv_remove_internal|].
      unfold remove. by rewrite lookup_remove_internal, lookup_delete_ne.
    - eauto.
    - destruct (reclaim_iter_keeps ndebug curr_ms m k md Hinv Hk Ho)
        as (e & m' & Hr & Hinv' & Hk').
      rewrite Hr. cbn. eauto. }
  unfold run. cbn [for_each]. rewrite Hs. cbn. by apply IH.
Qed.

(** Without a [put] of its key, an entry can only go away. *)
Lemma entry_fate ndebug (ops : list op) (m : expire_map4) k md :
  inv m → (lookup_map_ m !! k = None ∨ lookup_map_ m !! k = Some md) →
  Forall (no_put k) ops →
  ∃ m', run ndebug ops m = Ok m' ∧ inv m'
        ∧ (lookup_map_ m' !! k = None ∨ lookup_map_ m' !! k = Some md).
Proof.
  revert m. induction ops as [|o ops IH]; intros m Hinv Hk Hops.
  { by exists m. }
  apply Forall_cons in Hops as [Ho Hops].
  assert (∃ m1, step ndebug m o = Ok m1 ∧ inv m1
                ∧ (lookup_map_ m1 !! k = None ∨ lookup_map_ m1 !! k = Some md))
    as (m1 & Hs & Hinv1 & Hk1).
  { destruct o as [now key val ms|key|now key|curr_ms]; cbn in Ho |- *.
    - eexists. split; [done|]. split; [by apply inv_put|].
      by rewrite lookup_put, lookup_insert_ne.
    - eexists. split; [done|]. split; [by apply inv_remove_internal|].
      unfold remove. rewrite lookup_remove_internal.
      destruct (decide (key = k)) as [->|Hne].
      + left. by rewrite lookup_delete_eq.
      + by rewrite lookup_delete_ne.
    - eauto.
    - destruct (reclaim_iter_spec ndebug curr_ms m Hinv)
        as (st1 & e & m' & _ & _ & Hr & Hev & Hc' & _).
      rewrite Hr. cbn. exists m'. split; [done|]. split.
      { exists (sorted_timeouts_ m'). by rewrite (ev_log _ _ _ _ Hev). }
      destruct (lookup_map_ m' !! k) as [md'|] eqn:Hk'; [|by left].
      pose proof (ev_entries_sub _ _ _ _ Hev k md' Hk') as Hsub. cbn in Hsub.
      destruct Hk as [Hk|Hk]; rewrite Hk in Hsub; [done|]. by right. }
  unfold run. cbn [for_each]. rewrite Hs. cbn. by apply IH.
Qed.

End rounds.


Section termination.
Context {K V : Type} `{Countable K}.

Abbreviation expire_map5 := (@expire_map K V _ _).
Abbreviation map_data5 := (@map_data V).

(** A finite table has a latest deadline. *)
Lemma deadlines_bounded (lm : gmap K map_data5) : ∃ bound, deadlines_below bound lm.
Proof.
  induction lm as [|k md lm Hk [b Hb]] using map_ind.
  - exists 0. intros k md. by rewrite lookup_empty.
  - exists (Z.max b (timeout_ md)). intros k' md'.
    destruct (decide (k' = k)) as [->|Hne].
    + rewrite lookup_insert_eq. intros [= <-]. lia.
    + rewrite lookup_insert_ne by done. intros Hk'. specialize (Hb k' md' Hk'). lia.
Qed.








End termination.


Section behaviour.
Context {K V : Type} `{Countable K}.

Abbreviation expire_map6 := (@expire_map K V _ _).
Abbreviation map_data6 := (@map_data V).

(** A [put] whose deadline does not wrap is seen by a [get] at the same
    instant. *)
Lemma put_get_in_range (m : expire_map6) now key v ms val :
  0 <= now → 0 < ms → now + ms <= UINT64_MAX →
  get now key val (put now key v ms m) = (true, v, put now key v ms m).
Proof.
  intros Hnow Hms Hmax. unfold get. rewrite lookup_put, lookup_insert_eq. cbn.
  rewrite add64_small by lia. destruct (Z.leb_spec (now + ms) now); [lia | done].
Qed.

(** A [put] whose deadline wraps is expired as soon as it is made. *)
Lemma put_get_wrapped (m : expire_map6) now key v ms val :
  is_uint64 now → is_uint64 ms → UINT64_MAX < now + ms →
  get now key val (put now key v ms m) = (false, val, put now key v ms m).
Proof.
  unfold is_uint64, UINT64_MAX. intros Hnow Hms Hover.
  unfold get. rewrite lookup_put, lookup_insert_eq. cbn.
  assert (add64 now ms = now + ms - 2 ^ 64) as ->.
  { unfold add64. symmetry. apply (Z.mod_unique _ _ 1); lia. }
  destruct (Z.leb_spec (now + ms - 2 ^ 64) now); [done | lia].
Qed.

(** A removal record that finds the bucket of its deadline without its key
    trips the assertion. *)
Lemma populate_one_removal_missing_key (st : gmap Z (gset K)) k d keys :
  st !! d = Some keys → k ∉ keys →
  populate_one false st (mk_timeout_data k d true) = AssertFail.
Proof.
  intros Hd Hk. unfold populate_one. cbn. rewrite Hd.
  by rewrite (bool_decide_eq_false_2 (k ∈ keys)).
Qed.

(** A removal record that finds no bucket for its deadline takes the branch
    of a first insertion. *)
Lemma populate_one_removal_no_bucket ndebug (st : gmap Z (gset K)) k d :
  st !! d = None →
  populate_one ndebug st (mk_timeout_data k d true) = Ok (<[d := {[k]}]> st).
Proof. intros Hd. unfold populate_one. cbn. by rewrite Hd. Qed.

(** The least bucket, when due, goes in the iteration together with its
    entries. *)
Lemma least_bucket_evicted ndebug curr_ms (m : expire_map6) k d :
  inv m → has_deadline (lookup_map_ m) k d → d <= curr_ms →
  (∀ k' d', has_deadline (lookup_map_ m) k' d' → d <= d') →
  ∃ m', reclaim_iter ndebug curr_ms m = Ok (RECLAIMING, m')
        ∧ lookup_map_ m' !! k = None
        ∧ sorted_timeouts_ m' !! d = None.
Proof.
  intros Hinv Hk Hdue Hleast.
  destruct (reclaim_iter_spec ndebug curr_ms m Hinv)
    as (st1 & e & m' & _ & Hc1 & Hr & Hev & Hc' & He).
  assert (is_Some (st1 !! d)) as Hin.
  { destruct (proj2 (proj1 Hc1 k d) Hk) as (keys & Hb & _). eauto. }
  assert (∀ d', is_Some (st1 !! d') → d <= d') as Hmin.
  { intros d' Hd'. destruct (bucket_entry _ _ _ Hc1 Hd') as (k' & md' & Hk' & Hto).
    apply (Hleast k'). by exists md'. }
  destruct e as [| |diff|].
  - destruct He as (-> & _). rewrite lookup_empty in Hin. by destruct Hin.
  - destruct He as (-> & _). rewrite lookup_empty in Hin. by destruct Hin.
  - destruct He as (min_to & Hm & Hlt & _).
    apply min_timeout_Some in Hm as [_ Hle]. specialize (Hle d Hin). lia.
  - exists m'. split; [done|].
    assert (sorted_timeouts_ m' !! d = None) as Hgone.
    { destruct (sorted_timeouts_ m' !! d) as [keys|] eqn:Hd; [|done]. exfalso.
      destruct (ev_stop _ _ _ _ Hev) as [Hsz|Hfut]; cbn in *.
      - assert (sorted_timeouts_ m' = st1) as Heq.
        { apply map_eq. intros d'.
          destruct (ev_kept _ _ _ _ Hev d') as [Hn|Hs]; [|done]. cbn in *.
          destruct (st1 !! d') as [keys'|] eqn:Hd'; [|done].
          pose proof (ev_ascending _ _ _ _ Hev d' d) as Hasc. cbn in Hasc.
          specialize (Hasc ltac:(rewrite Hd'; eauto) Hn ltac:(rewrite Hd; eauto)).
          specialize (Hmin d' ltac:(eauto)). lia. }
        rewrite Heq in Hsz. unfold MAX_RECLAIM_ENTRIES in Hsz. lia.
      - specialize (Hfut d ltac:(eauto)). lia. }
    split; [|done]. destruct Hk as (md & Hmd & <-).
    by apply (ev_entries _ _ _ _ Hev k md Hmd).
Qed.

End behaviour.


Section latent.
Context {K V : Type} `{Countable K}.

Abbreviation expire_map8 := (@expire_map K V _ _).

Lemma clean_merge_app (st : gmap Z (gset K)) l1 l2 :
  clean_merge st l1 →
  (∀ st1, for_each (populate_one false) l1 st = Ok st1 → clean_merge st1 l2) →
  clean_merge st (l1 ++ l2).
Proof.
  revert st. induction l1 as [|data l1 IH]; intros st Hc1 Hc2; cbn.
  - by apply Hc2.
  - destruct Hc1 as [Hd Hrest]. split; [done|]. intros st' Hp.
    apply IH; [by apply Hrest|]. intros st1 Hfe. apply Hc2. cbn.
    by rewrite Hp.
Qed.

Lemma clean_remove_internal (m : expire_map8) key :
  inv m → clean_merge (sorted_timeouts_ m) (append_timeouts_ m) →
  clean_merge (sorted_timeouts_ (remove_internal key m))
              (append_timeouts_ (remove_internal key m)).
Proof.
  intros (st & Hfe & Hc) Hclean. unfold remove_internal.
  destruct (lookup_map_ m !! key) as [md|] eqn:Hk; [|done]. cbn.
  apply clean_merge_app; [done|]. intros st1 Hfe1. rewrite Hfe in Hfe1.
  injection Hfe1 as <-. cbn. split; [|done].
  apply (proj1 Hc). by exists md.
Qed.

Lemma clean_put (m : expire_map8) now key val ms :
  inv m → clean_merge (sorted_timeouts_ m) (append_timeouts_ m) →
  clean_merge (sorted_timeouts_ (put now key val ms m))
              (append_timeouts_ (put now key val ms m)).
Proof.
  intros Hinv Hclean.
  pose proof (clean_remove_internal m key Hinv Hclean) as Hclean'.
  destruct (inv_remove_internal m key Hinv) as (st & Hfe & Hc).
  assert (lookup_map_ (remove_internal key m) !! key = None) as Hnone
    by by rewrite lookup_remove_internal, lookup_delete_eq.
  assert (put now key val ms m = put now key val ms (remove_internal key m)) as ->.
  { unfold put at 1 2. cbv zeta. rewrite Hnone.
    destruct (lookup_map_ m !! key) as [md|] eqn:Hk; [done|].
    unfold remove_internal. by rewrite Hk. }
  unfold put. cbv zeta. rewrite Hnone. cbn.
  apply clean_merge_app; [done|]. intros st1 Hfe1. rewrite Hfe in Hfe1.
  injection Hfe1 as <-. cbn. split; [|done].
  rewrite (proj1 Hc). intros (md & Hmd & _). by rewrite Hnone in Hmd.
Qed.

(** In every reachable state the merge meets each record as it expects:
    no removal record is without its bucket or without its key in it. *)
Lemma reachable_clean_merge (m : expire_map8) :
  reachable m → clean_merge (sorted_timeouts_ m) (append_timeouts_ m).
Proof.
  intros [ops Hrun].
  assert (∀ ops (m0 m : expire_map8),
    inv m0 → clean_merge (sorted_timeouts_ m0) (append_timeouts_ m0) →
    run false ops m0 = Ok m →
    clean_merge (sorted_timeouts_ m) (append_timeouts_ m)) as Hgen.
  { clear. intros ops. induction ops as [|o ops IH]; intros m0 m Hinv Hclean Hrun.
    - by injection Hrun as <-.
    - unfold run in Hrun. cbn [for_each] in Hrun.
      destruct (step_inv false m0 o Hinv) as (m1 & Hs & Hinv1).
      rewrite Hs in Hrun. cbn in Hrun. apply (IH m1); [done| |done].
      destruct o as [now key val ms|key|now key|curr_ms]; cbn in Hs.
      + injection Hs as <-. by apply clean_put.
      + injection Hs as <-. by apply clean_remove_internal.
      + by injection Hs as <-.
      + destruct (reclaim_iter_spec false curr_ms m0 Hinv)
          as (st1 & e & m' & _ & _ & Hr & Hev & _).
        rewrite Hr in Hs. cbn in Hs. injection Hs as <-.
        by rewrite (ev_log _ _ _ _ Hev). }
  apply (Hgen ops new_map m); [apply inv_new_map | done | done].
Qed.

(** The index the merge has built when it comes to a record of the log. *)
Lemma merge_reaches_record (m : expire_map8) l1 data l2 :
  reachable m → append_timeouts_ m = l1 ++ data :: l2 →
  ∃ st1, for_each (populate_one false) l1 (sorted_timeouts_ m) = Ok st1
    ∧ if overwrite_ data
      then in_bucket st1 (td_timeout_ data) (key_ data)
      else ¬ in_bucket st1 (td_timeout_ data) (key_ data).
Proof.
  intros Hreach Hlog. pose proof (reachable_clean_merge m Hreach) as Hclean.
  destruct (reachable_inv m Hreach) as (st & Hfe & _).
  rewrite Hlog in Hclean, Hfe. clear Hlog Hreach.
  revert Hclean Hfe. generalize (sorted_timeouts_ m).
  induction l1 as [|r l1 IH]; intros st0 Hclean Hfe.
  - exists st0. split; [done|]. apply Hclean.
  - cbn [app for_each] in Hfe. destruct Hclean as [_ Hrest].
    destruct (populate_one false st0 r) as [st'|] eqn:Hp; [|done].
    cbn in Hfe. destruct (IH st' (Hrest st' eq_refl) Hfe) as (st1 & Hfe1 & Hd).
    exists st1. split; [|done]. cbn [for_each]. by rewrite Hp.
Qed.

(** What the merge does with a removal record whose key is in the bucket
    of its deadline. *)
Lemma populate_one_removal_found ndebug (st : gmap Z (gset K)) k d keys :
  st !! d = Some keys → k ∈ keys →
  populate_one ndebug st (mk_timeout_data k d true)
  = Ok (if decide (keys ∖ {[k]} = ∅)
        then delete d st
        else <[d := keys ∖ {[k]}]> st).
Proof.
  intros Hd Hk. unfold populate_one. cbn. rewrite Hd.
  rewrite (bool_decide_eq_true_2 (k ∈ keys)) by done. rewrite assert_true. cbn.
  destruct (decide (keys ∖ {[k]} = ∅)) as [He|He].
  - by rewrite bool_decide_eq_true_2.
  - by rewrite bool_decide_eq_false_2.
Qed.

End latent.


(** ** The documented behaviour *)

Section claims.
Context {K V : Type} `{Countable K}.

Abbreviation expire_map7 := (@expire_map K V _ _).


(** C2. At a quiescent point of a reachable state, where the pending log is
    empty, the deadline index is the deadline-to-keys relation of the entry
    table: every key of the table is in the bucket of its stored deadline
    and in no other, every key of a bucket is in the table, and no bucket is
    empty.  The state right after a merge is such a point, and every
    operation leads to a reachable state again. *)
Theorem quiescent_index_of_table (m : expire_map7) :
  reachable m →
  (append_timeouts_ m = [] →
     quiescent_index (lookup_map_ m) (sorted_timeouts_ m))
  ∧ (∃ m1, populate_sorted_timeouts false m = Ok m1
           ∧ append_timeouts_ m1 = []
           ∧ lookup_map_ m1 = lookup_map_ m
           ∧ quiescent_index (lookup_map_ m1) (sorted_timeouts_ m1))
  ∧ (∀ o, ∃ m', step false m o = Ok m' ∧ reachable m').
Proof.
  intros Hreach. pose proof (reachable_inv m Hreach) as Hinv. split_and!.
  - intros Hlog. destruct Hinv as (st & Hfe & Hc). rewrite Hlog in Hfe.
    injection Hfe as <-. by apply index_consistent_quiescent.
  - destruct (populate_inv false m Hinv) as (st & Hp & Hc).
    eexists. split; [done|]. cbn. split_and!; try done.
    by apply index_consistent_quiescent.
  - intros o. destruct (step_inv false m o Hinv) as (m' & Hs & _).
    exists m'. split; [done|]. destruct Hreach as [ops Hrun].
    exists (ops ++ [o]). unfold run in *. rewrite for_each_app, Hrun. cbn.
    by rewrite Hs.
Qed.

(** C4, at the input where it fails.  At time 1700000000000 ms, [put] with
    the TTL [2^64 - 1] stores the deadline 1699999999999, and the [get] at
    the same instant reports the key as not found. *)
Theorem put_max_ttl_not_found :
  let m := put 1700000000000 1 42 UINT64_MAX (new_map (K:=Z) (V:=Z)) in
  lookup_map_ m !! 1 = Some (mk_map_data 42 1699999999999)
  ∧ get 1700000000000 1 0 m = (false, 0, m).
Proof. split; reflexivity. Qed.

(** C3, counterexample.  A removal record for key 1 and deadline 5 merged
    into an index with no bucket for 5 trips no assertion: the merge
    creates the bucket and puts the key in it. *)
Theorem removal_without_bucket_inserts :
  populate_sorted_timeouts false
    (mk_expire_map [mk_timeout_data 1 5 true] ∅ (∅ : gmap Z (@map_data Z)) false)
  = Ok (mk_expire_map [] {[5 := {[1]}]} ∅ false).
Proof. reflexivity. Qed.

(** C3, as amended.  In a reachable state, when the merge comes to a
    removal record, the index it has built holds a bucket for the record's
    deadline and that bucket holds the record's key; the merge erases the
    key from the bucket and drops the bucket if that leaves it empty; and a
    removal record that finds a bucket for its deadline without its key in
    it aborts a build with assertions. *)
Theorem merge_removal_record (m : expire_map7) l1 k d l2 :
  reachable m →
  append_timeouts_ m = l1 ++ mk_timeout_data k d true :: l2 →
  (∃ st1 keys,
     for_each (populate_one false) l1 (sorted_timeouts_ m) = Ok st1
     ∧ st1 !! d = Some keys ∧ k ∈ keys
     ∧ populate_one false st1 (mk_timeout_data k d true)
       = Ok (if decide (keys ∖ {[k]} = ∅)
             then delete d st1
             else <[d := keys ∖ {[k]}]> st1))
  ∧ (∀ (st : gmap Z (gset K)) keys,
       st !! d = Some keys → k ∉ keys →
       populate_one false st (mk_timeout_data k d true) = AssertFail).
Proof.
  intros Hreach Hlog. split.
  - destruct (merge_reaches_record m l1 _ l2 Hreach Hlog)
      as (st1 & Hfe & keys & Hd & Hk).
    cbn in Hd, Hk. exists st1, keys. split_and!; try done.
    by apply populate_one_removal_found.
  - intros st keys Hd Hk. by eapply populate_one_removal_missing_key.
Qed.

(** C5. [get] reports not-found for a key that is not in the entry table;
    reports not-found, and leaves the whole state as it is, for a key whose
    stored deadline is at or before the current time; and otherwise reports
    found with the stored value.  It never changes the state. *)
Theorem get_spec (m : expire_map7) now key val :
  (lookup_map_ m !! key = None → get now key val m = (false, val, m))
  ∧ (∀ it, lookup_map_ m !! key = Some it → timeout_ it <= now →
           get now key val m = (false, val, m))
  ∧ (∀ it, lookup_map_ m !! key = Some it → now < timeout_ it →
           get now key val m = (true, value_ it, m)).
Proof.
  unfold get. split_and!.
  - by intros ->.
  - intros it -> Hle. by destruct (Z.leb_spec (timeout_ it) now); [|lia].
  - intros it -> Hlt. by destruct (Z.leb_spec (timeout_ it) now); [lia|].
Qed.

(** C6. In a reachable state, after the merge every key of every bucket is
    in the entry table with the bucket's deadline, and the reclaimer
    iteration, at whatever time it runs, completes in a build with
    assertions: every [erase] of the eviction loop returns 1. *)
Theorem evicted_keys_present (m : expire_map7) curr_ms :
  reachable m →
  ∃ m1 e m',
    populate_sorted_timeouts false m = Ok m1
    ∧ (∀ d keys k, sorted_timeouts_ m1 !! d = Some keys → k ∈ keys →
         ∃ md, lookup_map_ m1 !! k = Some md ∧ timeout_ md = d)
    ∧ reclaim_iter false curr_ms m = Ok (e, m').
Proof.
  intros Hinv%reachable_inv.
  destruct (reclaim_iter_spec false curr_ms m Hinv)
    as (st1 & e & m' & Hp & Hc1 & Hr & _).
  eexists _, e, m'. split; [done|]. split; [|done]. cbn.
  intros d keys k Hd Hk. apply (proj1 Hc1 k d). by exists keys.
Qed.

(** C7. One reclaimer iteration on a reachable state, after its merge:
    buckets are only removed, in ascending order of deadline, each removed
    one at or before the sampled time, at most [MAX_RECLAIM_ENTRIES = 10] of
    them, and the loop ends at the budget or when no due bucket is left;
    entries are removed with their bucket only, so every entry with a
    deadline after the sampled time is left as it was. *)
Theorem reclaim_round_spec ndebug (m : expire_map7) curr_ms :
  reachable m →
  ∃ m1 e m',
    populate_sorted_timeouts ndebug m = Ok m1
    ∧ reclaim_iter ndebug curr_ms m = Ok (e, m')
    ∧ evicts curr_ms 10 m1 m'
    ∧ (∀ k md, lookup_map_ m1 !! k = Some md → curr_ms < timeout_ md →
               lookup_map_ m' !! k = Some md).
Proof.
  intros Hinv%reachable_inv.
  destruct (reclaim_iter_spec ndebug curr_ms m Hinv)
    as (st1 & e & m' & Hp & Hc1 & Hr & Hev & _).
  eexists _, e, m'. split_and!; try done.
  cbn. intros k md Hk Hlt.
  destruct (reclaim_iter_keeps ndebug curr_ms m k md Hinv Hk Hlt)
    as (e' & m'' & Hr' & _ & Hk'').
  rewrite Hr in Hr'. by injection Hr' as _ <-.
Qed.



(** C9. [remove] of a key that is not in the entry table returns the state
    it was given: entry table, pending log and deadline index unchanged. *)
Theorem remove_absent (m : expire_map7) key :
  lookup_map_ m !! key = None → remove key m = m.
Proof. intros Hk. unfold remove, remove_internal. by rewrite Hk. Qed.

(** C10. Expiry is inclusive.  [put] with TTL 0 at time [now] stores the
    deadline [now]; whatever happens next short of another [put] of the
    key, [get] at any time from [now] on reports not-found; [get] reports
    not-found for any entry whose deadline equals the current time; and the
    reclaimer, run at the time that equals the earliest deadline, evicts
    that bucket and its entries. *)
Theorem expiry_inclusive ndebug (m : expire_map7) now key v (ops : list op) :
  reachable m → is_uint64 now → Forall (no_put key) ops →
  lookup_map_ (put now key v 0 m) !! key = Some (mk_map_data v now)
  ∧ (∃ m', run ndebug ops (put now key v 0 m) = Ok m'
           ∧ ∀ now' val, now <= now' → get now' key val m' = (false, val, m'))
  ∧ (∀ (m0 : expire_map7) it val,
       lookup_map_ m0 !! key = Some it → timeout_ it = now →
       get now key val m0 = (false, val, m0))
  ∧ (∀ (m0 : expire_map7) k,
       reachable m0 → has_deadline (lookup_map_ m0) k now →
       (∀ k' d', has_deadline (lookup_map_ m0) k' d' → now <= d') →
       ∃ m', reclaim_iter ndebug now m0 = Ok (RECLAIMING, m')
             ∧ lookup_map_ m' !! k = None
             ∧ sorted_timeouts_ m' !! now = None).
Proof.
  intros Hinv%reachable_inv Hnow Hops.
  assert (add64 now 0 = now) as Hd.
  { unfold is_uint64 in Hnow. rewrite add64_small; lia. }
  assert (lookup_map_ (put now key v 0 m) !! key = Some (mk_map_data v now)) as Hk.
  { by rewrite lookup_put, lookup_insert_eq, Hd. }
  split_and!.
  - done.
  - destruct (entry_fate ndebug ops (put now key v 0 m) key (mk_map_data v now))
      as (m' & Hrun & _ & Hk'); [by apply inv_put | by right | done |].
    exists m'. split; [done|]. intros now' val Hle. unfold get.
    destruct Hk' as [->| ->]; [done|]. cbn.
    by destruct (Z.leb_spec now now'); [|lia].
  - intros m0 it val Hit Hto. unfold get. rewrite Hit, Hto.
    by destruct (Z.leb_spec now now); [|lia].
  - intros m0 k Hinv0%reachable_inv Hk0 Hleast.
    by apply least_bucket_evicted; [..|lia|].
Qed.

End claims.


(** ** Further properties of the operations *)

Section further.
Context {K V : Type} `{Countable K}.

Abbreviation expire_map9 := (@expire_map K V _ _).
Abbreviation map_data9 := (@map_data V).

(** Without a [put] of its key, an absent key stays absent. *)
Lemma absent_stays ndebug (ops : list op) (m : expire_map9) k :
  inv m → lookup_map_ m !! k = None → Forall (no_put k) ops →
  ∃ m', run ndebug ops m = Ok m' ∧ inv m' ∧ lookup_map_ m' !! k = None.
Proof.
  revert m. induction ops as [|o ops IH]; intros m Hinv Hk Hops.
  { by exists m. }
  apply Forall_cons in Hops as [Ho Hops].
  assert (∃ m1, step ndebug m o = Ok m1 ∧ inv m1 ∧ lookup_map_ m1 !! k = None)
    as (m1 & Hs & Hinv1 & Hk1).
  { destruct o as [now key val ms|key|now key|curr_ms]; cbn in Ho |- *.
    - eexists. split; [done|]. split; [by apply inv_put|].
      by rewrite lookup_put, lookup_insert_ne.
    - eexists. split; [done|]. split; [by apply inv_remove_internal|].
      unfold remove. rewrite lookup_remove_internal.
      destruct (decide (key = k)) as [->|Hne].
      + by rewrite lookup_delete_eq.
      + by rewrite lookup_delete_ne.
    - eauto.
    - destruct (reclaim_iter_spec ndebug curr_ms m Hinv)
        as (st1 & e & m' & _ & _ & Hr & Hev & Hc' & _).
      rewrite Hr. cbn. exists m'. split; [done|]. split.
      { exists (sorted_timeouts_ m'). by rewrite (ev_log _ _ _ _ Hev). }
      destruct (lookup_map_ m' !! k) as [md'|] eqn:Hk'; [|done].
      pose proof (ev_entries_sub _ _ _ _ Hev k md' Hk') as Hsub. cbn in Hsub.
      by rewrite Hk in Hsub. }
  unfold run. cbn [for_each]. rewrite Hs. cbn. by apply IH.
Qed.

(** Each reclaimer iteration at a time at or after every deadline takes at
    least one entry out of a table that has one. *)
Lemma late_round_shrinks ndebug curr_ms (m : expire_map9) :
  inv m → deadlines_below curr_ms (lookup_map_ m) →
  ∃ e m', reclaim_iter ndebug curr_ms m = Ok (e, m') ∧ inv m'
    ∧ deadlines_below curr_ms (lookup_map_ m')
    ∧ (lookup_map_ m = ∅ → lookup_map_ m' = ∅)
    ∧ (lookup_map_ m ≠ ∅ →
       (base.size (lookup_map_ m') < base.size (lookup_map_ m))%nat).
Proof.
  intros Hinv Hbound.
  destruct (reclaim_iter_spec ndebug curr_ms m Hinv)
    as (st1 & e & m' & _ & Hc1 & Hr & Hev & Hc' & He).
  exists e, m'. split; [done|]. split.
  { exists (sorted_timeouts_ m'). by rewrite (ev_log _ _ _ _ Hev). }
  assert (lookup_map_ m' ⊆ lookup_map_ m) as Hsub.
  { apply map_subseteq_spec. intros k md Hk.
    by apply (ev_entries_sub _ _ _ _ Hev). }
  split_and!.
  - intros k md Hk. apply (Hbound k md). by apply (ev_entries_sub _ _ _ _ Hev).
  - intros Hempty. apply map_empty. intros k.
    destruct (lookup_map_ m' !! k) as [md|] eqn:Hk; [|done].
    apply (ev_entries_sub _ _ _ _ Hev) in Hk. cbn in Hk.
    by rewrite Hempty, lookup_empty in Hk.
  - intros Hne. destruct (map_choose _ Hne) as (k0 & md0 & Hk0).
    assert (is_Some (st1 !! timeout_ md0)) as Hin0.
    { destruct (proj2 (proj1 Hc1 k0 (timeout_ md0))) as (keys & Hb & _);
        [by exists md0 | eauto]. }
    destruct (min_timeout st1) as [d|] eqn:Hmin.
    2: { apply min_timeout_None in Hmin. rewrite Hmin, lookup_empty in Hin0.
         by destruct Hin0. }
    destruct (min_timeout_Some _ _ Hmin) as [Hd Hleast].
    destruct (bucket_entry _ _ _ Hc1 Hd) as (k & md & Hk & Hto).
    pose proof (Hbound k md Hk) as Hdue.
    destruct (least_bucket_evicted ndebug curr_ms m k d Hinv)
      as (m'' & Hr' & Hgone & _); [by exists md | lia | |].
    { intros k' d' (md' & Hk' & <-). apply Hleast.
      destruct (proj2 (proj1 Hc1 k' (timeout_ md'))) as (keys & Hb & _);
        [by exists md' | eauto]. }
    rewrite Hr in Hr'. injection Hr' as _ <-.
    apply map_subset_size. split; [done|]. intros Hsup.
    pose proof (proj1 (map_subseteq_spec _ _) Hsup k md Hk) as Hk'.
    by rewrite Hgone in Hk'.
Qed.

(** No public call and no reclaimer iteration sets the shutdown flag:
    only [cleanup] does. *)
Lemma reachable_not_shutdown (m : expire_map9) :
  reachable m → shutdown_ m = false.
Proof.
  intros [ops Hrun].
  assert (∀ ops (m0 m : expire_map9),
    inv m0 → run false ops m0 = Ok m → shutdown_ m = shutdown_ m0) as Hgen.
  { clear. intros ops. induction ops as [|o ops IH]; intros m0 m Hinv Hrun.
    - by injection Hrun as <-.
    - unfold run in Hrun. cbn [for_each] in Hrun.
      destruct (step_inv false m0 o Hinv) as (m1 & Hs & Hinv1).
      rewrite Hs in Hrun. cbn in Hrun. rewrite (IH m1 m Hinv1 Hrun).
      destruct o as [now key val ms|key|now key|curr_ms]; cbn in Hs.
      + injection Hs as <-. unfold put, remove_internal. cbv zeta.
        by destruct (lookup_map_ m0 !! key).
      + injection Hs as <-. unfold remove, remove_internal.
        by destruct (lookup_map_ m0 !! key).
      + by injection Hs as <-.
      + destruct (reclaim_iter_spec false curr_ms m0 Hinv)
          as (st1 & e & m' & _ & _ & Hr & Hev & _).
        rewrite Hr in Hs. cbn in Hs. injection Hs as <-.
        by rewrite (ev_shutdown _ _ _ _ Hev). }
  by rewrite (Hgen ops new_map m inv_new_map Hrun).
Qed.

(** X1. A key put with TTL [ms] at time [now] is reported not-found by
    every [get] at or after the deadline [now + ms] (as [uint64_t]),
    whatever calls and reclaimer iterations come in between, short of
    another [put] of the key. *)
Theorem expired_after_ttl ndebug (m : expire_map9) now key v ms (ops : list op) :
  reachable m → Forall (no_put key) ops →
  ∃ m', run ndebug ops (put now key v ms m) = Ok m'
        ∧ ∀ now' val, add64 now ms <= now' →
                      get now' key val m' = (false, val, m').
Proof.
  intros Hinv%reachable_inv Hops.
  destruct (entry_fate ndebug ops (put now key v ms m) key
              (mk_map_data v (add64 now ms)))
    as (m' & Hrun & _ & Hk'); [by apply inv_put | | done |].
  { right. by rewrite lookup_put, lookup_insert_eq. }
  exists m'. split; [done|]. intros now' val Hle. unfold get.
  destruct Hk' as [->| ->]; [done|]. cbn.
  by destruct (Z.leb_spec (add64 now ms) now'); [|lia].
Qed.

(** X2. A key that is not in the entry table, as every key is right after
    construction, is reported not-found by [get] at any time, through any
    calls and reclaimer iterations, until a [put] of that key. *)
Theorem absent_until_put ndebug (m : expire_map9) key (ops : list op) :
  reachable m → lookup_map_ m !! key = None → Forall (no_put key) ops →
  ∃ m', run ndebug ops m = Ok m'
        ∧ ∀ now val, get now key val m' = (false, val, m').
Proof.
  intros Hinv%reachable_inv Hk Hops.
  destruct (absent_stays ndebug ops m key Hinv Hk Hops) as (m' & Hrun & _ & Hk').
  exists m'. split; [done|]. intros now val. unfold get. by rewrite Hk'.
Qed.

(** X3. After [remove] of a key, [get] reports it not-found at any time,
    whatever deadline it had, through any calls and reclaimer iterations,
    until a [put] of that key. *)
Theorem removed_stays_absent ndebug (m : expire_map9) key (ops : list op) :
  reachable m → Forall (no_put key) ops →
  ∃ m', run ndebug ops (remove key m) = Ok m'
        ∧ ∀ now val, get now key val m' = (false, val, m').
Proof.
  intros Hinv%reachable_inv Hops.
  destruct (absent_stays ndebug ops (remove key m) key) as (m' & Hrun & _ & Hk');
    [by apply inv_remove_internal | | done |].
  { unfold remove. by rewrite lookup_remove_internal, lookup_delete_eq. }
  exists m'. split; [done|]. intros now val. unfold get. by rewrite Hk'.
Qed.

(** X4. [put] and [remove] of one key change what [get] reports for no
    other key. *)
Theorem other_keys_unaffected (m : expire_map9) now now' key key' v ms val :
  key ≠ key' →
  (get now' key' val (put now key v ms m)).1 = (get now' key' val m).1
  ∧ (get now' key' val (remove key m)).1 = (get now' key' val m).1.
Proof.
  intros Hne. unfold get, remove.
  rewrite lookup_put, lookup_insert_ne by done.
  rewrite lookup_remove_internal, lookup_delete_ne by done.
  destruct (lookup_map_ m !! key') as [it|]; [|done].
  by destruct (timeout_ it <=? now').
Qed.

(** X5. Eviction is not observable through [get]: a reclaimer iteration
    that samples the time [curr_ms] changes the answer of no [get] made at
    a time at or after [curr_ms]. *)
Theorem eviction_unobservable ndebug (m : expire_map9) curr_ms :
  reachable m →
  ∃ e m', reclaim_iter ndebug curr_ms m = Ok (e, m')
    ∧ ∀ now key val, curr_ms <= now →
        (get now key val m').1 = (get now key val m).1.
Proof.
  intros Hinv%reachable_inv.
  destruct (reclaim_iter_spec ndebug curr_ms m Hinv)
    as (st1 & e & m' & _ & Hc1 & Hr & Hev & _).
  exists e, m'. split; [done|]. intros now key val Hle. unfold get.
  destruct (lookup_map_ m' !! key) as [md'|] eqn:Hk'.
  - pose proof (ev_entries_sub _ _ _ _ Hev key md' Hk') as Hk. cbn in Hk.
    rewrite Hk. by destruct (timeout_ md' <=? now).
  - destruct (lookup_map_ m !! key) as [md|] eqn:Hk; [|done].
    apply (ev_entries _ _ _ _ Hev key md Hk) in Hk'. cbn in Hk'.
    assert (is_Some (st1 !! timeout_ md)) as Hin.
    { destruct (proj2 (proj1 Hc1 key (timeout_ md))) as (keys & Hb & _);
        [by exists md | eauto]. }
    pose proof (ev_due _ _ _ _ Hev (timeout_ md) Hin Hk') as Hdue. cbn.
    by destruct (Z.leb_spec (timeout_ md) now); [|lia].
Qed.

(** X6. [size] counts the entries of the table, expired or not: [put] adds
    one for a new key and none for a key already there, [remove] takes one
    away for a key that is there and none otherwise; and [empty] holds
    exactly when the table has no entry. *)
Theorem size_put_remove (m : expire_map9) now key v ms :
  (lookup_map_ m !! key = None →
     size (put now key v ms m) = S (size m) ∧ size (remove key m) = size m)
  ∧ (is_Some (lookup_map_ m !! key) →
     size (put now key v ms m) = size m ∧ S (size (remove key m)) = size m)
  ∧ (empty m = true ↔ lookup_map_ m = ∅).
Proof.
  unfold size, remove. rewrite lookup_put, lookup_remove_internal. split_and!.
  - intros Hk. split.
    + by apply map_size_insert_None.
    + by rewrite map_size_delete_None.
  - intros Hk. split.
    + by rewrite map_size_insert_Some.
    + rewrite map_size_delete_Some by done.
      pose proof (map_size_ne_0_lookup_2 (lookup_map_ m) key Hk). lia.
  - unfold empty, size. rewrite Nat.eqb_eq. apply map_size_empty_iff.
Qed.

(** X7. For a positive TTL, [get] at the instant of the [put] finds the
    value exactly when the deadline [now + ms] fits in 64 bits; when the sum
    wraps around, the key is reported not-found from the start. *)
Theorem put_then_get (m : expire_map9) now key v ms val :
  is_uint64 now → is_uint64 ms → 0 < ms →
  get now key val (put now key v ms m)
  = if now + ms <=? UINT64_MAX
    then (true, v, put now key v ms m)
    else (false, val, put now key v ms m).
Proof.
  intros Hnow Hms Hpos. destruct (Z.leb_spec (now + ms) UINT64_MAX).
  - apply put_get_in_range; [apply Hnow | done | done].
  - by apply put_get_wrapped.
Qed.

(** X8. [put] notifies the reclaimer exactly when no bucket of the deadline
    index has a deadline before the new one: when the index is empty or the
    new deadline is at or before its least deadline. *)
Theorem put_notifies_earliest (m : expire_map9) now ms :
  put_notifies now ms m = true
  ↔ ∀ d, is_Some (sorted_timeouts_ m !! d) → add64 now ms <= d.
Proof.
  unfold put_notifies. destruct (min_timeout (sorted_timeouts_ m)) as [min_to|] eqn:Hm.
  - destruct (min_timeout_Some _ _ Hm) as [Hin Hleast]. rewrite Z.leb_le. split.
    + intros Hle d Hd. specialize (Hleast d Hd). lia.
    + intros Hall. by apply Hall.
  - apply min_timeout_None in Hm. rewrite Hm. split; [|done].
    intros _ d. rewrite lookup_empty. by intros [??].
Qed.

(** X9. In every reachable state, when the merge comes to a record of the
    pending log, the index it has built so far holds the record's key in
    the bucket of the record's deadline if the record is a removal, and
    does not hold it there if the record is an insertion. *)
Theorem merge_meets_records (m : expire_map9) l1 data l2 :
  reachable m → append_timeouts_ m = l1 ++ data :: l2 →
  ∃ st1, for_each (populate_one false) l1 (sorted_timeouts_ m) = Ok st1
    ∧ if overwrite_ data
      then in_bucket st1 (td_timeout_ data) (key_ data)
      else ¬ in_bucket st1 (td_timeout_ data) (key_ data).
Proof.
  intros Hreach Hlog. pose proof (reachable_clean_merge m Hreach) as Hclean.
  destruct (reachable_inv m Hreach) as (st & Hfe & _).
  rewrite Hlog in Hclean, Hfe. clear Hlog Hreach.
  revert Hclean Hfe. generalize (sorted_timeouts_ m).
  induction l1 as [|r l1 IH]; intros st0 Hclean Hfe.
  - exists st0. split; [done|]. apply Hclean.
  - cbn [app for_each] in Hfe. destruct Hclean as [_ Hrest].
    destruct (populate_one false st0 r) as [st'|] eqn:Hp; [|done].
    cbn in Hfe. destruct (IH st' (Hrest st' eq_refl) Hfe) as (st1 & Hfe1 & Hd).
    exists st1. split; [|done]. cbn [for_each]. by rewrite Hp.
Qed.

(** X10. The assertions of the merge: with a bucket for the record's
    deadline, a removal record whose key is not in the bucket and an
    insertion record whose key is already in it abort a build with
    assertions; a build with [NDEBUG] leaves the index as it is in both
    cases. *)
Theorem merge_assertions (st : gmap Z (gset K)) k d keys :
  st !! d = Some keys → keys ≠ ∅ →
  (k ∉ keys →
     populate_one false st (mk_timeout_data k d true) = AssertFail
     ∧ populate_one true st (mk_timeout_data k d true) = Ok st)
  ∧ (k ∈ keys →
     populate_one false st (mk_timeout_data k d false) = AssertFail
     ∧ populate_one true st (mk_timeout_data k d false) = Ok st).
Proof.
  intros Hd Hne. unfold populate_one. cbn. rewrite Hd. split.
  - intros Hk. rewrite (bool_decide_eq_false_2 (k ∈ keys)) by done. cbn.
    split; [done|].
    assert (keys ∖ {[k]} = keys) as -> by set_solver.
    rewrite bool_decide_eq_false_2 by done. by rewrite insert_id.
  - intros Hk. rewrite (bool_decide_eq_false_2 (k ∉ keys)) by (by intros ?). cbn.
    split; [done|].
    assert (keys ∪ {[k]} = keys) as -> by set_solver. by rewrite insert_id.
Qed.

(** X12. Once the clock is at or after the deadline of every entry, as
    many reclaimer iterations as the table has entries empty the table:
    [empty] then holds. *)
Theorem late_rounds_empty_the_map ndebug (m : expire_map9) curr_ms :
  reachable m → deadlines_below curr_ms (lookup_map_ m) →
  ∃ m', run ndebug (replicate (size m) (Reclaim curr_ms)) m = Ok m'
        ∧ empty m' = true.
Proof.
  intros Hinv%reachable_inv Hbound.
  assert (∀ n (m0 : expire_map9),
    inv m0 → deadlines_below curr_ms (lookup_map_ m0) →
    (base.size (lookup_map_ m0) ≤ n)%nat →
    ∃ m', run ndebug (replicate n (Reclaim curr_ms)) m0 = Ok m'
          ∧ lookup_map_ m' = ∅) as Hgen.
  { clear. intros n. induction n as [|n IH]; intros m0 Hinv Hbound Hsize.
    - exists m0. split; [done|]. apply map_size_empty_inv. lia.
    - destruct (late_round_shrinks ndebug curr_ms m0 Hinv Hbound)
        as (e & m1 & Hr & Hinv1 & Hbound1 & Hempty & Hshrink).
      destruct (IH m1 Hinv1 Hbound1) as (m' & Hrun & Hm').
      { destruct (decide (lookup_map_ m0 = ∅)) as [He|Hne].
        - rewrite (Hempty He), map_size_empty. lia.
        - specialize (Hshrink Hne). lia. }
      exists m'. split; [|done]. unfold run in *. cbn [replicate for_each step].
      rewrite Hr. cbn. done. }
  destruct (Hgen (size m) m Hinv Hbound) as (m' & Hrun & Hm'); [done|].
  exists m'. split; [done|]. unfold empty, size. by rewrite Hm', map_size_empty.
Qed.

(** X13. How a reclaimer iteration ends without evicting, on a reachable
    state [m] and on [cleanup m] alike ([down] tells which).  With an entry
    whose deadline is the earliest and after the sampled time, the
    iteration goes to [cv_.wait_for] with [diff] the earliest deadline less
    the sampled time, the shutdown flag set or not; with an empty entry
    table it goes to [cv_.wait] when the flag is clear and returns when it
    is set.  The entry table and the flag are left as they were. *)
Theorem reclaimer_waits ndebug (m : expire_map9) curr_ms (down : bool) :
  reachable m →
  (∀ k md, lookup_map_ m !! k = Some md → curr_ms < timeout_ md →
     (∀ k' md', lookup_map_ m !! k' = Some md' → timeout_ md <= timeout_ md') →
     ∃ m', reclaim_iter ndebug curr_ms (if down then cleanup m else m)
           = Ok (TIMED_WAIT (timeout_ md - curr_ms), m')
           ∧ lookup_map_ m' = lookup_map_ m ∧ shutdown_ m' = down)
  ∧ (lookup_map_ m = ∅ →
     ∃ m', reclaim_iter ndebug curr_ms (if down then cleanup m else m)
           = Ok (if down then STOPPED else EMPTY_WAIT, m')
           ∧ lookup_map_ m' = ∅ ∧ shutdown_ m' = down).
Proof.
  intros Hreach. pose proof (reachable_inv m Hreach) as Hinv.
  pose proof (reachable_not_shutdown m Hreach) as Hup.
  set (m0 := if down then cleanup m else m).
  assert (inv m0) as Hinv0 by (unfold m0; destruct down; exact Hinv).
  assert (lookup_map_ m0 = lookup_map_ m) as Hlm by (unfold m0; by destruct down).
  assert (shutdown_ m0 = down) as Hsh by (unfold m0; by destruct down).
  destruct (reclaim_iter_spec ndebug curr_ms m0 Hinv0)
    as (st1 & e & m' & _ & Hc1 & Hr & Hev & Hc' & He).
  rewrite Hlm in Hc1. rewrite Hsh in He.
  split.
  - intros k md Hk Hfut Hleast.
    assert (is_Some (st1 !! timeout_ md)) as Hin.
    { destruct (proj2 (proj1 Hc1 k (timeout_ md))) as (keys & Hb & _);
        [by exists md | eauto]. }
    assert (∀ d, is_Some (st1 !! d) → timeout_ md <= d) as Hmin.
    { intros d Hd. destruct (bucket_entry _ _ _ Hc1 Hd) as (k' & md' & Hk' & <-).
      by apply (Hleast k'). }
    destruct e as [| |diff|].
    + destruct He as (-> & _). rewrite lookup_empty in Hin. by destruct Hin.
    + destruct He as (-> & _). rewrite lookup_empty in Hin. by destruct Hin.
    + destruct He as (min_to & Hm & Hlt & -> & ->).
      destruct (min_timeout_Some _ _ Hm) as [Hin' Hle].
      assert (min_to = timeout_ md) as ->.
      { specialize (Hle _ Hin). specialize (Hmin _ Hin'). lia. }
      eexists. split; [done|]. cbn [lookup_map_ shutdown_]. by rewrite ?Hlm, ?Hsh.
    + destruct He as (min_to & Hm & Hdue).
      destruct (min_timeout_Some _ _ Hm) as [Hin' _].
      specialize (Hmin _ Hin'). lia.
  - intros Hempty.
    assert (st1 = ∅) as ->.
    { apply map_empty. intros d. destruct (st1 !! d) as [keys|] eqn:Hd; [|done].
      destruct (bucket_entry _ _ _ Hc1 ltac:(eauto)) as (k & md & Hk & _).
      by rewrite Hempty, lookup_empty in Hk. }
    destruct e as [| |diff|].
    + destruct He as (_ & Hd & ->). eexists.
      split; [rewrite Hr, Hd; reflexivity|].
      cbn [lookup_map_ shutdown_]. by rewrite ?Hlm, ?Hsh.
    + destruct He as (_ & Hd & ->). eexists.
      split; [rewrite Hr, Hd; reflexivity|].
      cbn [lookup_map_ shutdown_]. by rewrite ?Hlm, ?Hsh.
    + destruct He as (min_to & Hm & _).
      rewrite (proj2 (min_timeout_None ∅) eq_refl) in Hm. done.
    + destruct He as (min_to & Hm & _).
      rewrite (proj2 (min_timeout_None ∅) eq_refl) in Hm. done.
Qed.

(** X14. [put] of a new key followed by [remove] of it restores the entry
    table, and after the next merge the whole state is the one the merge
    would have given without the two calls. *)
Theorem put_remove_roundtrip ndebug (m : expire_map9) now key v ms :
  reachable m → lookup_map_ m !! key = None →
  lookup_map_ (remove key (put now key v ms m)) = lookup_map_ m
  ∧ ∃ m1, populate_sorted_timeouts ndebug m = Ok m1
          ∧ populate_sorted_timeouts ndebug (remove key (put now key v ms m))
            = Ok m1.
Proof.
  intros Hinv%reachable_inv Hk.
  assert (lookup_map_ (remove key (put now key v ms m)) = lookup_map_ m) as Hlm.
  { unfold remove. rewrite lookup_remove_internal, lookup_put.
    by rewrite delete_insert_id. }
  split; [done|].
  assert (inv (remove key (put now key v ms m))) as Hinv'
    by by apply inv_remove_internal, inv_put.
  destruct (populate_inv ndebug m Hinv) as (st & Hp & Hc).
  destruct (populate_inv ndebug _ Hinv') as (st' & Hp' & Hc').
  rewrite Hlm in Hc', Hp'.
  rewrite (index_consistent_unique _ _ _ Hc' Hc) in Hp'.
  eexists. split; [done|]. rewrite Hp'. f_equal. f_equal.
  unfold remove, remove_internal, put. cbv zeta. rewrite Hk. cbn.
  unfold map_insert. rewrite Hk, lookup_insert_eq. done.
Qed.

(** X15. No interleaving of public calls and reclaimer iterations, started
    from the constructor's state, trips an assertion, in the merge or in the
    eviction. *)
Theorem no_assertion_fires (ops : list (@op K V)) :
  ∃ m : expire_map9, run false ops new_map = Ok m.
Proof.
  destruct (run_inv false ops new_map inv_new_map) as (m & Hrun & _). eauto.
Qed.

(** X16. No entry is evicted before its deadline: an entry stays in the
    table, value and deadline unchanged, through every interleaving that
    neither puts nor removes its key and runs the reclaimer only at times
    before its deadline. *)
Theorem not_evicted_early ndebug (m : expire_map9) key md (ops : list op) :
  reachable m → lookup_map_ m !! key = Some md →
  Forall (leaves key (timeout_ md)) ops →
  ∃ m', run ndebug ops m = Ok m'
        ∧ lookup_map_ m' !! key = Some md
        ∧ ∀ now val, now < timeout_ md →
            get now key val m' = (true, value_ md, m').
Proof.
  intros Hinv%reachable_inv Hk Hops.
  destruct (entry_stable ndebug ops m key md Hinv Hk Hops) as (m' & Hrun & _ & Hk').
  exists m'. split_and!; try done. intros now val Hlt. unfold get. rewrite Hk'.
  by destruct (Z.leb_spec (timeout_ md) now); [lia|].
Qed.

End further.


(** ** The trie: insertion and lookup *)

Module TrieFacts.
Import Trie.

Section facts.
Context {T : Type} (T_default : T).

Abbreviation Node' := (Node T).

Lemma lookup_new_Node c key (val : T) :
  lookup (new_Node T_default c) key val = (false, val).
Proof. by destruct key. Qed.

Lemma insert_nil (root : Node') v : insert T_default root [] v = None.
Proof. done. Qed.

(** The two equations of [insert] on a key that is not empty. *)
Lemma insert_last (root : Node') c v :
  insert T_default root [c] v
  = Some (mk_Node (key_ root) (value_ root) (terminus_ root)
            (<[c := mk_Node (key_ (child_for T_default root c)) v true
                      (nodes_ (child_for T_default root c))]> (nodes_ root))).
Proof. done. Qed.

Lemma insert_more (root : Node') c c2 rest v :
  insert T_default root (c :: c2 :: rest) v
  = match insert T_default (child_for T_default root c) (c2 :: rest) v with
    | Some n' => Some (mk_Node (key_ root) (value_ root) (terminus_ root)
                         (<[c := n']> (nodes_ root)))
    | None => None
    end.
Proof. done. Qed.

Lemma insert_is_Some (root : Node') key v :
  key ≠ [] → is_Some (insert T_default root key v).
Proof.
  revert root. induction key as [|c rest IH]; intros root Hne; [done|].
  destruct rest as [|c2 rest]; [by rewrite insert_last|].
  rewrite insert_more.
  destruct (IH (child_for T_default root c) ltac:(done)) as [n' ->]. eauto.
Qed.

(** [insert] changes the children of the root only. *)
Lemma insert_root (root root' : Node') key v :
  insert T_default root key v = Some root' →
  key_ root' = key_ root ∧ value_ root' = value_ root
  ∧ terminus_ root' = terminus_ root.
Proof.
  intros Hins. destruct key as [|c [|c2 rest]].
  - discriminate Hins.
  - rewrite insert_last in Hins. by injection Hins as <-.
  - rewrite insert_more in Hins.
    destruct (insert _ _ _ _) as [n'|]; [|discriminate Hins].
    by injection Hins as <-.
Qed.

Lemma lookup_child_for (root : Node') c rest val :
  lookup root (c :: rest) val
  = match rest with
    | [] => match nodes_ root !! c with
            | Some n => lookup n [] val
            | None => (false, val)
            end
    | _ :: _ => lookup (child_for T_default root c) rest val
    end.
Proof.
  unfold child_for. cbn [lookup]. destruct rest as [|c2 rest]; [done|].
  destruct (nodes_ root !! c) as [n|]; [done|]. cbn. by rewrite lookup_empty.
Qed.

Lemma lookup_insert_same (root root' : Node') key v val :
  insert T_default root key v = Some root' → lookup root' key val = (true, v).
Proof.
  revert root root'. induction key as [|c rest IH]; intros root root' Hins.
  { discriminate Hins. }
  destruct rest as [|c2 rest].
  - rewrite insert_last in Hins. injection Hins as <-.
    cbn. by rewrite lookup_insert_eq.
  - rewrite insert_more in Hins.
    destruct (insert T_default _ (c2 :: rest) v) as [n'|] eqn:Hn';
      [|discriminate Hins].
    injection Hins as <-. cbn [lookup nodes_]. rewrite lookup_insert_eq.
    by eapply IH.
Qed.

Lemma lookup_insert_other (root root' : Node') key key' v val :
  insert T_default root key v = Some root' → key' ≠ key →
  lookup root' key' val = lookup root key' val.
Proof.
  revert root root' key'. induction key as [|c rest IH];
    intros root root' key' Hins Hne.
  { discriminate Hins. }
  destruct key' as [|c' rest'].
  { cbn. destruct (insert_root _ _ _ _ Hins) as (_ & -> & ->). done. }
  destruct (decide (c' = c)) as [->|Hc].
  2: { cbn [lookup]. destruct rest as [|c2 rest].
       - rewrite insert_last in Hins. injection Hins as <-.
         cbn. by rewrite lookup_insert_ne.
       - rewrite insert_more in Hins.
         destruct (insert _ _ _ _) as [n'|]; [|discriminate Hins].
         injection Hins as <-. cbn. by rewrite lookup_insert_ne. }
  assert (rest' ≠ rest) as Hrest by congruence.
  destruct rest as [|c2 rest].
  - rewrite insert_last in Hins. injection Hins as <-.
    destruct rest' as [|c3 rest']; [done|].
    rewrite (lookup_child_for root). cbn [lookup nodes_].
    by rewrite lookup_insert_eq.
  - rewrite insert_more in Hins.
    destruct (insert T_default _ (c2 :: rest) v) as [n'|] eqn:Hn';
      [|discriminate Hins].
    injection Hins as <-. cbn [lookup nodes_]. rewrite lookup_insert_eq.
    rewrite (IH _ _ _ Hn' Hrest). unfold child_for.
    destruct (nodes_ root !! c) as [n0|]; [done|]. apply lookup_new_Node.
Qed.

Lemma child_for_insert (m : gmap ascii Node') (root : Node') c n :
  child_for T_default
    (mk_Node (key_ root) (value_ root) (terminus_ root) (<[c := n]> m)) c = n.
Proof. unfold child_for. cbn. by rewrite lookup_insert_eq. Qed.

Lemma insert_cons (root : Node') c rest v :
  insert T_default root (c :: rest) v
  = (λ n', mk_Node (key_ root) (value_ root) (terminus_ root)
             (<[c := n']> (nodes_ root)))
    <$> insert_below T_default (child_for T_default root c) rest v.
Proof.
  destruct rest as [|c2 rest]; [done|]. rewrite insert_more. cbn.
  by destruct (insert _ _ _ _).
Qed.

(** [insert] reads the children of its root and keeps the other fields. *)
Lemma insert_fields (n : Node') k' v' t' key v :
  insert T_default (mk_Node k' v' t' (nodes_ n)) key v
  = (λ r, mk_Node k' v' t' (nodes_ r)) <$> insert T_default n key v.
Proof.
  destruct key as [|c rest]; [done|]. rewrite !insert_cons.
  unfold child_for. cbn [nodes_ key_ value_ terminus_].
  by destruct (insert_below _ _ _ _).
Qed.

Lemma insert_comm (root a b : Node') k1 k2 v1 v2 :
  k1 ≠ k2 →
  insert T_default root k1 v1 = Some a → insert T_default root k2 v2 = Some b →
  insert T_default a k2 v2 = insert T_default b k1 v1.
Proof.
  revert root a b k2. induction k1 as [|c1 r1 IH]; intros root a b k2 Hne Ha Hb.
  { discriminate Ha. }
  destruct k2 as [|c2 r2]; [discriminate Hb|].
  rewrite insert_cons in Ha, Hb.
  destruct (insert_below T_default (child_for T_default root c1) r1 v1)
    as [n1|] eqn:H1; [|discriminate Ha].
  destruct (insert_below T_default (child_for T_default root c2) r2 v2)
    as [n2|] eqn:H2; [|discriminate Hb].
  injection Ha as <-. injection Hb as <-. rewrite !insert_cons.
  cbn [key_ value_ terminus_ nodes_].
  destruct (decide (c1 = c2)) as [->|Hc].
  - rewrite !child_for_insert.
    assert (r1 ≠ r2) as Hr by congruence.
    assert (insert_below T_default n1 r2 v2 = insert_below T_default n2 r1 v1)
      as ->.
    2: { destruct (insert_below T_default n2 r1 v1) as [x|]; [|done]. cbn.
         by rewrite !insert_insert_eq. }
    destruct r1 as [|c r1]; destruct r2 as [|c' r2]; [done| | |];
      unfold insert_below in H1, H2 |- *.
    + injection H1 as <-. rewrite insert_fields, H2. cbn.
      by destruct (insert_root _ _ _ _ H2) as (-> & _).
    + injection H2 as <-. rewrite insert_fields, H1. cbn.
      by destruct (insert_root _ _ _ _ H1) as (-> & _).
    + by eapply IH.
  - assert (∀ n, child_for T_default
               (mk_Node (key_ root) (value_ root) (terminus_ root)
                  (<[c1 := n]> (nodes_ root))) c2
             = child_for T_default root c2) as ->.
    { intros n. unfold child_for. cbn. by rewrite lookup_insert_ne. }
    assert (∀ n, child_for T_default
               (mk_Node (key_ root) (value_ root) (terminus_ root)
                  (<[c2 := n]> (nodes_ root))) c1
             = child_for T_default root c1) as ->.
    { intros n. unfold child_for. cbn. by rewrite lookup_insert_ne. }
    rewrite H1, H2. cbn. by rewrite insert_insert_ne.
Qed.

(** The trie after a run of [insert] calls answers as the map of the
    run's bindings, whatever it answered like before. *)
Lemma insert_all_as_map kvs : ∀ (root : Node') (M : gmap (list ascii) T),
  (∀ key val, lookup root key val
              = match M !! key with Some v => (true, v) | None => (false, val) end) →
  Forall (λ kv, kv.1 ≠ []) kvs →
  ∃ root', insert_all T_default root kvs = Some root'
    ∧ ∀ key val, lookup root' key val
        = match foldl (λ M kv, <[kv.1 := kv.2]> M) M kvs !! key with
          | Some v => (true, v)
          | None => (false, val)
          end.
Proof.
  induction kvs as [|[k v] kvs IH]; intros root M HM Hne.
  { by exists root. }
  apply Forall_cons in Hne as [Hk Hne]. cbn in Hk. cbn [insert_all foldl fst snd].
  destruct (insert_is_Some root k v Hk) as [root1 Hins]. rewrite Hins.
  apply IH; [|done]. intros key val.
  destruct (decide (key = k)) as [->|Hkey].
  - rewrite lookup_insert_eq. by eapply lookup_insert_same.
  - rewrite lookup_insert_ne by done. rewrite <- HM.
    by eapply lookup_insert_other.
Qed.

Lemma node_app (root : Node') p s :
  node root (p ++ s) = node root p ≫= λ n, node n s.
Proof.
  revert root. induction p as [|c p IH]; intros root; cbn; [done|].
  destruct (nodes_ root !! c) as [n|]; [apply IH | done].
Qed.

Lemma lookup_node (root : Node') key val :
  lookup root key val
  = match node root key with
    | Some d => if terminus_ d then (true, value_ d) else (false, val)
    | None => (false, val)
    end.
Proof.
  revert root. induction key as [|c rest IH]; intros root; cbn; [done|].
  destruct (nodes_ root !! c) as [n|]; [apply IH | done].
Qed.

End facts.

Section prefix_facts.
Context {T : Type} `{Countable T}.
Context (children : Node T → list (Node T)).
Hypothesis children_perm : ∀ n, children n ≡ₚ children_in_order n.

Lemma weight_unfold (n : Node T) :
  weight n = S (sum_list_with weight (children_in_order n)).
Proof.
  destruct n as [k v t m]. unfold children_in_order. cbn [nodes_].
  change (weight (mk_Node k v t m))
    with (S (map_fold (λ _ c acc, (weight c + acc)%nat) 0%nat m)).
  f_equal. rewrite map_fold_foldr.
  induction (map_to_list m) as [|[ch c] l IH]; [done|]. cbn. by rewrite IH.
Qed.

Lemma weight_children (n : Node T) :
  weight n = S (sum_list_with weight (children n)).
Proof. by rewrite weight_unfold, (children_perm n). Qed.

Lemma elem_of_children (n c : Node T) :
  c ∈ children n ↔ ∃ ch, nodes_ n !! ch = Some c.
Proof.
  rewrite (children_perm n). unfold children_in_order.
  rewrite list_elem_of_fmap. split.
  - intros [[ch c'] [-> Hin]]. exists ch. by apply elem_of_map_to_list.
  - intros [ch Hch]. exists (ch, c). split; [done|]. by apply elem_of_map_to_list.
Qed.

Lemma stored_below_self (n : Node T) :
  terminus_ n = true → stored_below n (value_ n).
Proof. intros Ht. by exists [], n. Qed.

Lemma stored_below_child (n c : Node T) v :
  c ∈ children n → stored_below c v → stored_below n v.
Proof.
  intros [ch Hch]%elem_of_children (s & d & Hs & Ht & Hv).
  exists (ch :: s), d. cbn. by rewrite Hch.
Qed.

Lemma stored_below_inv (n : Node T) v :
  stored_below n v →
  (terminus_ n = true ∧ value_ n = v)
  ∨ ∃ c, c ∈ children n ∧ stored_below c v.
Proof.
  intros (s & d & Hs & Ht & Hv). destruct s as [|ch s]; cbn in Hs.
  - injection Hs as <-. by left.
  - destruct (nodes_ n !! ch) as [c|] eqn:Hch; [|done]. right. exists c. split.
    + apply elem_of_children. eauto.
    + by exists s, d.
Qed.

(** The loop ends: every iteration takes one node of the finite trie. *)
Lemma bfs_terminates fuel : ∀ (nodes : list (Node T)) (values : gset T),
  (sum_list_with weight nodes < fuel)%nat →
  is_Some (bfs children fuel nodes values).
Proof.
  induction fuel as [|fuel IH]; intros nodes values Hfuel; [lia|].
  destruct nodes as [|n rest]; cbn [bfs]; [eauto|].
  destruct (terminus_ n && _); [eauto|]. apply IH.
  rewrite sum_list_with_app. cbn in Hfuel. rewrite (weight_children n) in Hfuel.
  lia.
Qed.

Lemma bfs_fuel_mono fuel : ∀ fuel' (nodes : list (Node T)) (values vs : gset T),
  bfs children fuel nodes values = Some vs → (fuel ≤ fuel')%nat →
  bfs children fuel' nodes values = Some vs.
Proof.
  induction fuel as [|fuel IH]; intros fuel' nodes values vs Hb Hle; [done|].
  destruct fuel' as [|fuel']; [lia|]. cbn [bfs] in Hb |- *.
  destruct nodes as [|n rest]; [done|].
  destruct (terminus_ n && _); [done|]. apply IH; [done | lia].
Qed.

(** Values are only added. *)
Lemma bfs_mono fuel : ∀ (nodes : list (Node T)) (values vs : gset T),
  bfs children fuel nodes values = Some vs → values ⊆ vs.
Proof.
  induction fuel as [|fuel IH]; intros nodes values vs Hb; [done|].
  cbn [bfs] in Hb. destruct nodes as [|n rest]; [by injection Hb as <-|].
  destruct (terminus_ n && _).
  - injection Hb as <-. destruct (terminus_ n); set_solver.
  - apply IH in Hb. destruct (terminus_ n); set_solver.
Qed.

(** Every value added is stored at or below a node of the deque. *)
Lemma bfs_sound fuel : ∀ (nodes : list (Node T)) (values vs : gset T),
  bfs children fuel nodes values = Some vs →
  ∀ v, v ∈ vs → v ∈ values ∨ ∃ q, q ∈ nodes ∧ stored_below q v.
Proof.
  induction fuel as [|fuel IH]; intros nodes values vs Hb v Hv; [done|].
  cbn [bfs] in Hb. destruct nodes as [|n rest]; [injection Hb as <-; by left|].
  assert (∀ v, v ∈ (if terminus_ n then {[value_ n]} ∪ values else values) →
               v ∈ values ∨ ∃ q, q ∈ n :: rest ∧ stored_below q v) as Hnew.
  { intros v' Hv'. destruct (terminus_ n) eqn:Ht; [|by left].
    apply elem_of_union in Hv' as [->%elem_of_singleton|?]; [|by left].
    right. exists n. split; [left | by apply stored_below_self]. }
  destruct (terminus_ n && _).
  - injection Hb as <-. by apply Hnew.
  - destruct (IH _ _ _ Hb v Hv) as [Hin|(q & Hq & Hs)]; [by apply Hnew|].
    right. apply elem_of_app in Hq as [Hq|Hq].
    + exists q. split; [by right | done].
    + exists n. split; [left|]. by eapply stored_below_child.
Qed.

(** Unless the loop stops at the maximum, every value stored at or below a
    node of the deque is added. *)
Lemma bfs_complete fuel : ∀ (nodes : list (Node T)) (values vs : gset T),
  bfs children fuel nodes values = Some vs →
  base.size vs ≠ prefix_match_max_values_default_ →
  ∀ q v, q ∈ nodes → stored_below q v → v ∈ vs.
Proof.
  induction fuel as [|fuel IH]; intros nodes values vs Hb Hsz q v Hq Hs; [done|].
  cbn [bfs] in Hb. destruct nodes as [|n rest]; [by apply elem_of_nil in Hq|].
  destruct (terminus_ n && _) eqn:Hstop.
  - injection Hb as <-. apply andb_true_iff in Hstop as [_ Hst%Nat.eqb_eq]. done.
  - pose proof (bfs_mono _ _ _ _ Hb) as Hmono.
    apply elem_of_cons in Hq as [->|Hq].
    + destruct (stored_below_inv _ _ Hs) as [[Ht <-]|(c & Hc & Hsc)].
      * rewrite Ht in Hmono. set_solver.
      * apply (IH _ _ _ Hb Hsz c); [|done]. apply elem_of_app. by right.
    + apply (IH _ _ _ Hb Hsz q); [|done]. apply elem_of_app. by left.
Qed.

(** Started below the maximum, the loop never goes beyond it. *)
Lemma bfs_bound fuel : ∀ (nodes : list (Node T)) (values vs : gset T),
  bfs children fuel nodes values = Some vs →
  (base.size values < prefix_match_max_values_default_)%nat →
  (base.size vs ≤ prefix_match_max_values_default_)%nat.
Proof.
  induction fuel as [|fuel IH]; intros nodes values vs Hb Hsz; [done|].
  cbn [bfs] in Hb. destruct nodes as [|n rest]; [injection Hb as <-; lia|].
  destruct (terminus_ n) eqn:Ht; cbn [andb] in Hb.
  - assert (base.size ({[value_ n]} ∪ values) ≤ S (base.size values))%nat as Hone.
    { rewrite size_union_alt, size_singleton.
      pose proof (subseteq_size (values ∖ {[value_ n]}) values ltac:(set_solver)).
      lia. }
    destruct (Nat.eqb_spec (base.size ({[value_ n]} ∪ values))
                prefix_match_max_values_default_) as [Heq|Hneq].
    + injection Hb as <-. lia.
    + apply (IH _ _ _ Hb). lia.
  - by apply (IH _ _ _ Hb).
Qed.

Lemma lookup_stored_below (root : Node T) key suffix v :
  (∀ val, lookup root (key ++ suffix) val = (true, v))
  ↔ ∃ n d, node root key = Some n ∧ node n suffix = Some d
           ∧ terminus_ d = true ∧ value_ d = v.
Proof.
  split.
  - intros Hl. specialize (Hl v). rewrite lookup_node, node_app in Hl.
    destruct (node root key) as [n|]; cbn in Hl; [|done].
    destruct (node n suffix) as [d|] eqn:Hd; [|done].
    destruct (terminus_ d) eqn:Ht; [|done]. injection Hl as Hv.
    by exists n, d.
  - intros (n & d & Hn & Hd & Ht & Hv) val.
    rewrite lookup_node, node_app, Hn. cbn. by rewrite Hd, Ht, Hv.
Qed.

End prefix_facts.

Section trie_theorems.
Context {T : Type} (T_default : T).

(** X17. [insert] with a key that is not empty succeeds; [lookup] of that
    key then finds the inserted value, and [lookup] of any other key
    answers as before. *)
Theorem lookup_after_insert (root : Node T) key v :
  key ≠ [] →
  ∃ root', insert T_default root key v = Some root'
    ∧ (∀ val, lookup root' key val = (true, v))
    ∧ (∀ key' val, key' ≠ key → lookup root' key' val = lookup root key' val).
Proof.
  intros Hne. destruct (insert_is_Some T_default root key v Hne) as [root' Hins].
  exists root'. split_and!; [done| |].
  - intros val. by eapply lookup_insert_same.
  - intros key' val Hkey. by eapply lookup_insert_other.
Qed.

(** X18. A second [insert] with the same key overwrites the first without
    trace: the trie is the one the second [insert] alone gives. *)
Theorem insert_overwrites (root r1 : Node T) key v1 v2 :
  insert T_default root key v1 = Some r1 →
  insert T_default r1 key v2 = insert T_default root key v2.
Proof.
  revert root r1. induction key as [|c rest IH]; intros root r1 Hins.
  { discriminate Hins. }
  destruct rest as [|c2 rest].
  - rewrite insert_last in Hins. injection Hins as <-.
    rewrite !insert_last, child_for_insert. cbn.
    by rewrite insert_insert_eq.
  - rewrite insert_more in Hins.
    destruct (insert T_default _ (c2 :: rest) v1) as [n1|] eqn:Hn1;
      [|discriminate Hins].
    injection Hins as <-. rewrite !insert_more, child_for_insert.
    rewrite (IH _ _ Hn1). cbn [key_ value_ terminus_ nodes_].
    destruct (insert T_default _ (c2 :: rest) v2) as [n2|]; [|done].
    by rewrite insert_insert_eq.
Qed.

(** X19. Two [insert] calls with different keys give the same trie in
    either order. *)
Theorem insert_commutes (root a b : Node T) k1 k2 v1 v2 :
  k1 ≠ k2 →
  insert T_default root k1 v1 = Some a → insert T_default root k2 v2 = Some b →
  ∃ ab, insert T_default a k2 v2 = Some ab ∧ insert T_default b k1 v1 = Some ab.
Proof.
  intros Hne Ha Hb. assert (k2 ≠ []) as Hk2 by (by intros ->).
  destruct (insert_is_Some T_default a k2 v2 Hk2) as [ab Hab].
  exists ab. split; [done|]. by rewrite <- (insert_comm _ _ _ _ _ _ _ _ Hne Ha Hb).
Qed.

(** X20. A new trie finds no key, and after any run of [insert] calls
    with keys that are not empty, [lookup] answers as the map of the run's
    bindings does: found with the value of the last [insert] of the key,
    not found for a key never inserted. *)
Theorem trie_answers_as_map (kvs : list (list ascii * T)) :
  Forall (λ kv, kv.1 ≠ []) kvs →
  ∃ root, insert_all T_default (new_root T_default) kvs = Some root
    ∧ ∀ key val, lookup root key val
        = match bindings kvs !! key with
          | Some v => (true, v)
          | None => (false, val)
          end.
Proof.
  intros Hne. apply (insert_all_as_map T_default kvs (new_root T_default) ∅); [|done].
  intros key val. rewrite lookup_empty. apply lookup_new_Node.
Qed.

End trie_theorems.

Section prefix_theorems.
Context {T : Type} `{Countable T}.
Context (children : Node T → list (Node T)).

(** X21. Whatever the order in which the children of a node are walked,
    [prefix_match] ends; it only adds to the set it is given, and every
    value it adds is the value [lookup] finds for some key that starts
    with the given prefix; started with fewer than 10 values, it ends with
    at most 10. *)
Theorem prefix_match_sound (root : Node T) key (values : gset T) :
  (∀ n, children n ≡ₚ children_in_order n) →
  ∃ fuel vs,
    (∀ fuel', (fuel ≤ fuel')%nat →
       prefix_match children fuel' root key values = Some vs)
    ∧ values ⊆ vs
    ∧ (∀ v, v ∈ vs →
         v ∈ values
         ∨ ∃ suffix, ∀ val, lookup root (key ++ suffix) val = (true, v))
    ∧ ((base.size values < 10)%nat → (base.size vs ≤ 10)%nat).
Proof.
  intros Hperm. unfold prefix_match.
  destruct (node root key) as [n|] eqn:Hn.
  2: { exists 0%nat, values. split_and!; [done|done| |lia]. intros v Hv. by left. }
  destruct (bfs_terminates children Hperm (S (weight n)) [n] values) as [vs Hvs].
  { cbn. lia. }
  exists (S (weight n)), vs. split_and!.
  - intros fuel' Hle. by eapply bfs_fuel_mono.
  - by eapply bfs_mono.
  - intros v Hv.
    destruct (bfs_sound children Hperm _ _ _ _ Hvs v Hv) as [?|(q & Hq & Hs)];
      [by left|].
    apply list_elem_of_singleton in Hq as ->. destruct Hs as (s & d & Hd & Ht & Hval).
    right. exists s. apply lookup_stored_below. by exists n, d.
  - intros Hsz. by eapply (bfs_bound children).
Qed.

(** X22. When [prefix_match] ends with a number of values other than 10,
    the set holds the value of every key that starts with the given prefix
    and that [lookup] finds. *)
Theorem prefix_match_complete (root : Node T) key (values vs : gset T) fuel :
  (∀ n, children n ≡ₚ children_in_order n) →
  prefix_match children fuel root key values = Some vs →
  base.size vs ≠ 10%nat →
  ∀ suffix v, (∀ val, lookup root (key ++ suffix) val = (true, v)) → v ∈ vs.
Proof.
  intros Hperm Hpm Hsz suffix v Hl.
  apply lookup_stored_below in Hl as (n & d & Hn & Hd & Ht & Hv).
  unfold prefix_match in Hpm. rewrite Hn in Hpm.
  apply (bfs_complete children Hperm _ _ _ _ Hpm Hsz n); [by left|].
  by exists suffix, d.
Qed.

End prefix_theorems.
End TrieFacts.


(** ** The theorems at the sample states *)

(** Goes through a [Forall] over a list of operations, deciding each
    side condition by evaluation. *)
Ltac each_op :=
  repeat (apply Forall_cons; split;
          [cbn [leaves no_put];
           first [exact I | discriminate | (vm_compute; reflexivity)] |]);
  exact (List.Forall_nil _).


Lemma quiescent_index_of_table_witness :
  (append_timeouts_ sample_quiet = [] →
     quiescent_index (lookup_map_ sample_quiet) (sorted_timeouts_ sample_quiet))
  ∧ (∃ m1, populate_sorted_timeouts false sample_quiet = Ok m1
           ∧ append_timeouts_ m1 = []
           ∧ lookup_map_ m1 = lookup_map_ sample_quiet
           ∧ quiescent_index (lookup_map_ m1) (sorted_timeouts_ m1))
  ∧ (∀ o, ∃ m', step false sample_quiet o = Ok m' ∧ reachable m').
Proof.
  apply (quiescent_index_of_table sample_quiet).
  exists (sample_ops ++ [Reclaim 50]). vm_compute. reflexivity.
Defined.

Lemma merge_removal_record_witness :
  (∃ st1 keys,
     for_each (populate_one false) [mk_timeout_data 4 300 false]
       (sorted_timeouts_ sample_busy) = Ok st1
     ∧ st1 !! 5150 = Some keys ∧ 3 ∈ keys
     ∧ populate_one false st1 (mk_timeout_data 3 5150 true)
       = Ok (if decide (keys ∖ {[3]} = ∅)
             then delete 5150 st1
             else <[5150 := keys ∖ {[3]}]> st1))
  ∧ (∀ (st : gmap Z (gset Z)) keys,
       st !! 5150 = Some keys → 3 ∉ keys →
       populate_one false st (mk_timeout_data 3 5150 true) = AssertFail).
Proof.
  apply (merge_removal_record sample_busy [mk_timeout_data 4 300 false] 3 5150 []).
  - exists sample_ops. vm_compute. reflexivity.
  - vm_compute. reflexivity.
Defined.

Lemma get_spec_witness :
  get 100 2 0 sample_one = (false, 0, sample_one)
  ∧ get 1100 1 0 sample_one = (false, 0, sample_one)
  ∧ get 1099 1 0 sample_one = (true, 1234, sample_one).
Proof.
  split_and!.
  - apply (proj1 (get_spec sample_one 100 2 0)). reflexivity.
  - apply (proj1 (proj2 (get_spec sample_one 1100 1 0)) (mk_map_data 1234 1100)).
    + reflexivity.
    + simpl. lia.
  - apply (proj2 (proj2 (get_spec sample_one 1099 1 0)) (mk_map_data 1234 1100)).
    + reflexivity.
    + simpl. lia.
Defined.

Lemma evicted_keys_present_witness :
  ∃ m1 e m',
    populate_sorted_timeouts false sample_busy = Ok m1
    ∧ (∀ d keys k, sorted_timeouts_ m1 !! d = Some keys → k ∈ keys →
         ∃ md, lookup_map_ m1 !! k = Some md ∧ timeout_ md = d)
    ∧ reclaim_iter false 400 sample_busy = Ok (e, m').
Proof.
  apply (evicted_keys_present sample_busy 400).
  exists sample_ops. vm_compute. reflexivity.
Defined.

Lemma reclaim_round_spec_witness :
  ∃ m1 e m',
    populate_sorted_timeouts false sample_busy = Ok m1
    ∧ reclaim_iter false 400 sample_busy = Ok (e, m')
    ∧ evicts 400 10 m1 m'
    ∧ (∀ k md, lookup_map_ m1 !! k = Some md → 400 < timeout_ md →
               lookup_map_ m' !! k = Some md).
Proof.
  apply (reclaim_round_spec false sample_busy 400).
  exists sample_ops. vm_compute. reflexivity.
Defined.


Lemma remove_absent_witness : remove 2 sample_one = sample_one.
Proof. apply (remove_absent sample_one 2). reflexivity. Defined.

Lemma expiry_inclusive_witness :
  lookup_map_ (put 100 1 7 0 sample_one) !! 1 = Some (mk_map_data 7 100)
  ∧ (∃ m', run false [Reclaim 100; Remove 2; Get 100 1; Put 120 3 9 50]
             (put 100 1 7 0 sample_one) = Ok m'
           ∧ ∀ now' val, 100 <= now' → get now' 1 val m' = (false, val, m'))
  ∧ (∀ (m0 : @expire_map Z Z _ _) it val,
       lookup_map_ m0 !! 1 = Some it → timeout_ it = 100 →
       get 100 1 val m0 = (false, val, m0))
  ∧ (∀ (m0 : @expire_map Z Z _ _) k,
       reachable m0 → has_deadline (lookup_map_ m0) k 100 →
       (∀ k' d', has_deadline (lookup_map_ m0) k' d' → 100 <= d') →
       ∃ m', reclaim_iter false 100 m0 = Ok (RECLAIMING, m')
             ∧ lookup_map_ m' !! k = None
             ∧ sorted_timeouts_ m' !! 100 = None).
Proof.
  apply (expiry_inclusive false sample_one 100 1 7
           [Reclaim 100; Remove 2; Get 100 1; Put 120 3 9 50]).
  - exists [Put 100 1 1234 1000]. reflexivity.
  - unfold is_uint64, UINT64_MAX. lia.
  - each_op.
Defined.

Lemma expired_after_ttl_witness :
  ∃ m', run false [Reclaim 1100; Get 1100 1; Remove 2]
          (put 100 1 1234 1000 sample_busy) = Ok m'
        ∧ ∀ now' val, add64 100 1000 <= now' →
                      get now' 1 val m' = (false, val, m').
Proof.
  apply (expired_after_ttl false sample_busy 100 1 1234 1000
           [Reclaim 1100; Get 1100 1; Remove 2]).
  - exists sample_ops. vm_compute. reflexivity.
  - each_op.
Defined.

Lemma absent_until_put_witness :
  ∃ m', run false [Put 10 2 5 100; Reclaim 200; Remove 7] sample_new = Ok m'
        ∧ ∀ now val, get now 7 val m' = (false, val, m').
Proof.
  apply (absent_until_put false sample_new 7 [Put 10 2 5 100; Reclaim 200; Remove 7]).
  - exists []. reflexivity.
  - reflexivity.
  - each_op.
Defined.

Lemma removed_stays_absent_witness :
  ∃ m', run false [Reclaim 50; Put 60 2 5 100; Get 70 1] (remove 1 sample_busy) = Ok m'
        ∧ ∀ now val, get now 1 val m' = (false, val, m').
Proof.
  apply (removed_stays_absent false sample_busy 1 [Reclaim 50; Put 60 2 5 100; Get 70 1]).
  - exists sample_ops. vm_compute. reflexivity.
  - each_op.
Defined.

Lemma other_keys_unaffected_witness :
  (get 500 1 0 (put 400 2 9 50 sample_one)).1 = (get 500 1 0 sample_one).1
  ∧ (get 500 1 0 (remove 2 sample_one)).1 = (get 500 1 0 sample_one).1.
Proof. apply (other_keys_unaffected sample_one 400 500 2 1 9 50 0). discriminate. Defined.

Lemma eviction_unobservable_witness :
  ∃ e m', reclaim_iter false 400 sample_busy = Ok (e, m')
    ∧ ∀ now key val, 400 <= now →
        (get now key val m').1 = (get now key val sample_busy).1.
Proof.
  apply (eviction_unobservable false sample_busy 400).
  exists sample_ops. vm_compute. reflexivity.
Defined.

Lemma size_put_remove_witness :
  (size (put 100 2 5 10 sample_one) = S (size sample_one)
   ∧ size (remove 2 sample_one) = size sample_one)
  ∧ (size (put 100 1 5 10 sample_one) = size sample_one
     ∧ S (size (remove 1 sample_one)) = size sample_one).
Proof.
  split.
  - apply (proj1 (size_put_remove sample_one 100 2 5 10)). reflexivity.
  - apply (proj1 (proj2 (size_put_remove sample_one 100 1 5 10))).
    exists (mk_map_data 1234 1100). reflexivity.
Defined.

Lemma put_then_get_witness :
  get 1700000000000 1 0 (put 1700000000000 1 42 1000 sample_new)
  = if 1700000000000 + 1000 <=? UINT64_MAX
    then (true, 42, put 1700000000000 1 42 1000 sample_new)
    else (false, 0, put 1700000000000 1 42 1000 sample_new).
Proof.
  apply (put_then_get sample_new 1700000000000 1 42 1000 0).
  - unfold is_uint64, UINT64_MAX. lia.
  - unfold is_uint64, UINT64_MAX. lia.
  - lia.
Defined.

Lemma merge_meets_records_witness :
  ∃ st1, for_each (populate_one false) [mk_timeout_data 4 300 false]
           (sorted_timeouts_ sample_busy) = Ok st1
    ∧ in_bucket st1 5150 3.
Proof.
  apply (merge_meets_records sample_busy [mk_timeout_data 4 300 false]
           (mk_timeout_data 3 5150 true) []).
  - exists sample_ops. vm_compute. reflexivity.
  - vm_compute. reflexivity.
Defined.

Lemma merge_assertions_witness :
  (populate_one false {[5 := {[2]}]} (mk_timeout_data 1 5 true) = AssertFail
   ∧ populate_one true {[5 := {[2]}]} (mk_timeout_data 1 5 true)
     = Ok ({[5 := {[2]}]} : gmap Z (gset Z)))
  ∧ (populate_one false {[5 := {[2]}]} (mk_timeout_data 2 5 false) = AssertFail
     ∧ populate_one true {[5 := {[2]}]} (mk_timeout_data 2 5 false)
       = Ok ({[5 := {[2]}]} : gmap Z (gset Z))).
Proof.
  split.
  - destruct (merge_assertions ({[5 := {[2]}]} : gmap Z (gset Z)) 1 5 {[2]})
      as [Hremoval _].
    + reflexivity.
    + apply (bool_decide_unpack _). vm_compute. exact I.
    + apply Hremoval. apply (bool_decide_unpack _). vm_compute. exact I.
  - destruct (merge_assertions ({[5 := {[2]}]} : gmap Z (gset Z)) 2 5 {[2]})
      as [_ Hinsertion].
    + reflexivity.
    + apply (bool_decide_unpack _). vm_compute. exact I.
    + apply Hinsertion. apply (bool_decide_unpack _). vm_compute. exact I.
Defined.

Lemma late_rounds_empty_the_map_witness :
  ∃ m', run false (replicate (size sample_busy) (Reclaim 6000)) sample_busy = Ok m'
        ∧ empty m' = true.
Proof.
  apply (late_rounds_empty_the_map false sample_busy 6000).
  - exists sample_ops. vm_compute. reflexivity.
  - apply (bool_decide_unpack
             (map_Forall (λ _ md, timeout_ md <= 6000) (lookup_map_ sample_busy))).
    vm_compute. exact I.
Defined.

Lemma reclaimer_waits_witness :
  (∃ m', reclaim_iter false 400 (cleanup sample_one)
         = Ok (TIMED_WAIT (1100 - 400), m')
         ∧ lookup_map_ m' = lookup_map_ sample_one ∧ shutdown_ m' = true)
  ∧ (∃ m', reclaim_iter false 400 (cleanup sample_new) = Ok (STOPPED, m')
           ∧ lookup_map_ m' = ∅ ∧ shutdown_ m' = true)
  ∧ (∃ m', reclaim_iter false 400 sample_new = Ok (EMPTY_WAIT, m')
           ∧ lookup_map_ m' = ∅ ∧ shutdown_ m' = false).
Proof.
  split_and!.
  - destruct (reclaimer_waits false sample_one 400 true) as [Htimed _].
    { exists [Put 100 1 1234 1000]. reflexivity. }
    apply (Htimed 1 (mk_map_data 1234 1100)).
    + reflexivity.
    + simpl. lia.
    + apply (bool_decide_unpack
               (map_Forall (λ _ md, 1100 <= timeout_ md) (lookup_map_ sample_one))).
      vm_compute. exact I.
  - destruct (reclaimer_waits false sample_new 400 true) as [_ Hempty].
    { exists []. reflexivity. }
    apply Hempty. reflexivity.
  - destruct (reclaimer_waits false sample_new 400 false) as [_ Hempty].
    { exists []. reflexivity. }
    apply Hempty. reflexivity.
Defined.

Lemma put_remove_roundtrip_witness :
  lookup_map_ (remove 9 (put 100 9 5 10 sample_busy)) = lookup_map_ sample_busy
  ∧ ∃ m1, populate_sorted_timeouts false sample_busy = Ok m1
          ∧ populate_sorted_timeouts false (remove 9 (put 100 9 5 10 sample_busy))
            = Ok m1.
Proof.
  apply (put_remove_roundtrip false sample_busy 100 9 5 10).
  - exists sample_ops. vm_compute. reflexivity.
  - vm_compute. reflexivity.
Defined.

Lemma not_evicted_early_witness :
  ∃ m', run false [Reclaim 400; Put 500 2 7 10; Reclaim 1099; Remove 4] sample_busy
        = Ok m'
        ∧ lookup_map_ m' !! 1 = Some (mk_map_data 1234 1100)
        ∧ ∀ now val, now < 1100 → get now 1 val m' = (true, 1234, m').
Proof.
  apply (not_evicted_early false sample_busy 1 (mk_map_data 1234 1100)
           [Reclaim 400; Put 500 2 7 10; Reclaim 1099; Remove 4]).
  - exists sample_ops. vm_compute. reflexivity.
  - vm_compute. reflexivity.
  - each_op.
Defined.

Lemma lookup_after_insert_witness :
  ∃ root', Trie.insert 0 sample_trie key_fem 6666 = Some root'
    ∧ (∀ val, Trie.lookup root' key_fem val = (true, 6666))
    ∧ (∀ key' val, key' ≠ key_fem →
         Trie.lookup root' key' val = Trie.lookup sample_trie key' val).
Proof. apply (TrieFacts.lookup_after_insert 0 sample_trie key_fem 6666). discriminate. Defined.

Lemma insert_overwrites_witness :
  Trie.insert 0 sample_trie_foo key_foo 4444
  = Trie.insert 0 (Trie.new_root 0) key_foo 4444.
Proof.
  apply (TrieFacts.insert_overwrites 0 (Trie.new_root 0) sample_trie_foo key_foo 1111 4444).
  vm_compute. reflexivity.
Defined.

Lemma insert_commutes_witness :
  ∃ ab, Trie.insert 0 sample_trie_foo key_faa 2222 = Some ab
        ∧ Trie.insert 0 sample_trie_faa key_foo 1111 = Some ab.
Proof.
  apply (TrieFacts.insert_commutes 0 (Trie.new_root 0) sample_trie_foo sample_trie_faa
           key_foo key_faa 1111 2222).
  - discriminate.
  - vm_compute. reflexivity.
  - vm_compute. reflexivity.
Defined.

Lemma trie_answers_as_map_witness :
  ∃ root, Trie.insert_all 0 (Trie.new_root 0) sample_inserts = Some root
    ∧ ∀ key val, Trie.lookup root key val
        = match Trie.bindings sample_inserts !! key with
          | Some v => (true, v)
          | None => (false, val)
          end.
Proof.
  apply (TrieFacts.trie_answers_as_map 0 sample_inserts).
  repeat (apply List.Forall_cons; [discriminate|]). exact (List.Forall_nil _).
Defined.

Lemma prefix_match_sound_witness :
  ∃ fuel vs,
    (∀ fuel', (fuel ≤ fuel')%nat →
       Trie.prefix_match Trie.children_in_order fuel' sample_trie key_f ∅ = Some vs)
    ∧ ∅ ⊆ vs
    ∧ (∀ v, v ∈ vs →
         v ∈ (∅ : gset Z)
         ∨ ∃ suffix, ∀ val,
             Trie.lookup sample_trie (key_f ++ suffix) val = (true, v))
    ∧ ((base.size (∅ : gset Z) < 10)%nat → (base.size vs ≤ 10)%nat).
Proof.
  apply (TrieFacts.prefix_match_sound Trie.children_in_order sample_trie key_f ∅).
  intros n. reflexivity.
Defined.

Lemma prefix_match_complete_witness : 4444 ∈ ({[2222; 3333; 4444]} : gset Z).
Proof.
  apply (TrieFacts.prefix_match_complete Trie.children_in_order sample_trie key_f
           ∅ {[2222; 3333; 4444]} 20) with (suffix := ["o"; "o"]%char).
  - intros n. reflexivity.
  - vm_compute. reflexivity.
  - vm_compute. discriminate.
  - intros val. vm_compute. reflexivity.
Defined.
